(** * Sibilance compiler front end: parse cursor, ordered alternation,
      indentation tokens and the argument-list rule

    Shallow embedding of [compiler/parser.py] and
    [compiler/language_models/argument_list.py].

    Conventions.
    - A Python [str] is a [string]; its characters are the code points
      below 256.  [isspace] is the whitespace class shared by [str.strip]
      and the regular expression escape [\s] on that range.
    - Line numbers, column numbers and block depths are counts: the
      constructor defaults are [0] and the rules only add to them or, for
      [EndBlock], subtract one from a positive depth.  They are [nat].
    - A call either returns or raises: [Result E A] is [Return a] or
      [Raise e], with [e] in [E], an inductive type with one constructor
      per exception class.
    - A symbol class ([typing.Type[Symbol]]) is a value of [SymbolType];
      calling [symbol_type.parse(parser)] is the dispatch [Symbol_parse]. *)

From Stdlib Require Import Ascii String Arith Lia.
From stdpp Require Import base list strings.

Local Open Scope string_scope.
Local Open Scope list_scope.
Local Open Scope nat_scope.

(** ** Python strings *)

(** Whitespace code points below 256: U+0009..U+000D, U+001C..U+001F,
    U+0020, U+0085 and U+00A0. *)
Definition isspace (c : ascii) : bool :=
  let n := nat_of_ascii c in
  ((9 <=? n) && (n <=? 13)) || ((28 <=? n) && (n <=? 31))
  || (n =? 32) || (n =? 133) || (n =? 160).

Definition is_blank (c : ascii) : bool := nat_of_ascii c =? 32.

(** Longest prefix of [s] whose characters all satisfy [f], and what is
    left after it. *)
Fixpoint take_while (f : ascii -> bool) (s : string) : string :=
  match s with
  | String c s' => if f c then String c (take_while f s') else EmptyString
  | EmptyString => EmptyString
  end.

Fixpoint drop_while (f : ascii -> bool) (s : string) : string :=
  match s with
  | String c s' => if f c then drop_while f s' else s
  | EmptyString => EmptyString
  end.

(** [str.lstrip], [str.rstrip] and [str.strip] without arguments. *)
Definition lstrip (s : string) : string := drop_while isspace s.

Fixpoint rstrip (s : string) : string :=
  match s with
  | String c s' =>
      match rstrip s' with
      | EmptyString => if isspace c then EmptyString else String c EmptyString
      | r => String c r
      end
  | EmptyString => EmptyString
  end.

Definition strip (s : string) : string := rstrip (lstrip s).

Definition is_empty (s : string) : bool :=
  match s with EmptyString => true | String _ _ => false end.

(** The match object of [_INDENT_REGEX.match(s)].  The pattern is: start
    of the string, group 1 a greedy run of U+0020, group 2 a greedy run
    of whitespace.  It matches every string; group 1 is the run of
    U+0020 at the start and group 2 the whitespace run after it. *)
Record Match := {
  group1 : string;
  group2 : string;
}.

Definition _INDENT_REGEX_match (s : string) : Match :=
  {| group1 := take_while is_blank s;
     group2 := take_while isspace (drop_while is_blank s) |}.

Definition match_start2 (m : Match) : nat := String.length (group1 m).
Definition match_end (m : Match) : nat :=
  String.length (group1 m) + String.length (group2 m).

(** ** Symbols, cursors and exceptions ([parser.py]) *)

(** The symbol classes.  [External name] is a [Symbol] subclass defined
    in another module of the compiler. *)
Inductive SymbolType :=
| EndFile
| BlankLine
| EndLine
| BeginBlock
| EndBlock
| External (name : string).

(** The span every [Token] carries. *)
Record Token := {
  first_line : nat;
  next_line : nat;
  first_column : nat;
  next_column : nat;
}.

(** Symbol instances.  [BeginBlock] and [EndBlock] add [block_depth];
    [ExternalToken] is an instance of a [Token] subclass defined
    elsewhere, [ExternalSymbol] an instance of any other subclass. *)
Inductive Symbol :=
| mkEndFile (tok : Token)
| mkBlankLine (tok : Token)
| mkEndLine (tok : Token)
| mkBeginBlock (tok : Token) (depth : nat)
| mkEndBlock (tok : Token) (depth : nat)
| ExternalToken (name : string) (tok : Token)
| ExternalSymbol (name : string).

Record Parser := {
  _lines : list string;
  line : nat;
  column : nat;
  last_symbol : option Symbol;
  block_depth : nat;
}.

(** [Parser(lines)]: the cursor a parse starts from. *)
Definition Parser_new (lines : list string) : Parser :=
  {| _lines := lines; line := 0; column := 0;
     last_symbol := None; block_depth := 0 |}.

(** A call returns a value or raises an exception of type [E]. *)
Inductive Result (E A : Type) :=
| Return (a : A)
| Raise (e : E).
Arguments Return {E A} a.
Arguments Raise {E A} e.

(** Sequencing: an exception raised by the first call ends the whole
    computation.  This gives [x ← r; k] its meaning on [Result E]. *)
#[global] Instance Result_ret {E} : MRet (Result E) := fun A a => Return a.
#[global] Instance Result_bind {E} : MBind (Result E) := fun A B k r =>
  match r with
  | Return a => k a
  | Raise e => Raise e
  end.

(** [ParseError] and its subclasses.  [NoMatchError] keeps the exception
    it was raised [from], when there is one.  [ParseError] itself, the
    base class, declares no attribute: an instance holds nothing.
    [OtherError] is an exception of a class outside this hierarchy (a
    [TypeError], say) that a rule outside this module raises. *)
#[local] Set Warnings "-register-all".
Inductive Exn :=
| NoMatchError (parser : Parser) (expected_symbols : list SymbolType)
               (cause : option Exn)
| IndentationError (message : string) (at_line at_column : nat)
| ParseError
| OtherError (description : string).

Definition is_NoMatchError (e : Exn) : bool :=
  match e with NoMatchError _ _ _ => true | _ => false end.

(** ** [Parser] methods *)

Definition line_text (self : Parser) (line_arg : option nat) : string :=
  let line := match line_arg with None => line self | Some l => l end in
  if line <? length (_lines self) then
    match _lines self !! line with
    | Some text => text
    | None => ""                (* not reached: the index is in range *)
    end
  else "".

Definition last_line (self : Parser) : nat :=
  Nat.max 0 (length (_lines self) - 1).

Definition is_block_token (symbol : Symbol) : option nat :=
  match symbol with
  | mkBeginBlock _ d | mkEndBlock _ d => Some d
  | _ => None
  end.

Definition as_token (symbol : Symbol) : option Token :=
  match symbol with
  | mkEndFile t | mkBlankLine t | mkEndLine t
  | mkBeginBlock t _ | mkEndBlock t _ | ExternalToken _ t => Some t
  | ExternalSymbol _ => None
  end.

Definition new_from_symbol (self : Parser) (symbol : Symbol) : Parser :=
  let block_depth' :=
    match is_block_token symbol with
    | Some d => d
    | None => block_depth self
    end in
  let '(line', column') :=
    match as_token symbol with
    | Some t => (next_line t, next_column t)
    | None => (line self, column self)
    end in
  {| _lines := _lines self;
     line := Nat.min line' (last_line self + 1);
     column := column';
     last_symbol := Some symbol;
     block_depth := block_depth' |}.

(** ** The indentation depth of the current line *)

Definition _measure_block_depth (parser : Parser) : Result Exn nat :=
  let m := _INDENT_REGEX_match (line_text parser None) in
  if negb (is_empty (group2 m)) then
    Raise (IndentationError
             "each block must be indented four spaces (other whitespace found)"
             (line parser) (match_start2 m))
  else
    let indentation := match_end m in
    let depth := indentation / 4 in
    let remainder := indentation mod 4 in
    if negb (remainder =? 0) then
      Raise (IndentationError
               "each block must be indented four spaces (extra spaces found)"
               (line parser) (depth * 4))
    else if block_depth parser + 1 <? depth then
      Raise (IndentationError
               "each block must be indented four spaces (block over-indented)"
               (line parser) ((block_depth parser + 1) * 4))
    else Return depth.

(** ** The token rules *)

Definition EndFile_parse (parser : Parser) : Result Exn (option Parser) :=
  if last_line parser <=? line parser then
    if String.length (line_text parser None) <=? column parser then
      Return (Some (new_from_symbol parser (mkEndFile
        {| first_line := line parser; next_line := line parser;
           first_column := column parser; next_column := column parser |})))
    else Return None
  else Return None.

Definition BlankLine_parse (parser : Parser) : Result Exn (option Parser) :=
  if negb (column parser =? 0) then Return None
  else if is_empty (strip (line_text parser None)) then
    Return (Some (new_from_symbol parser (mkBlankLine
      {| first_line := line parser; next_line := line parser + 1;
         first_column := 0; next_column := 0 |})))
  else Return None.

Definition EndLine_parse (parser : Parser) : Result Exn (option Parser) :=
  if String.length (line_text parser None) <=? column parser then
    Return (Some (new_from_symbol parser (mkEndLine
      {| first_line := line parser; next_line := line parser + 1;
         first_column := column parser; next_column := 0 |})))
  else Return None.

Definition BeginBlock_parse (parser : Parser) : Result Exn (option Parser) :=
  if negb (column parser =? 0) then Return None
  else
    measured ← _measure_block_depth parser;
    if block_depth parser <? measured then
      Return (Some (new_from_symbol parser (mkBeginBlock
        {| first_line := line parser; next_line := line parser;
           first_column := column parser; next_column := column parser |}
        (block_depth parser + 1))))
    else Return None.

Definition EndBlock_parse (parser : Parser) : Result Exn (option Parser) :=
  if negb (column parser =? 0) then Return None
  else
    measured ← _measure_block_depth parser;
    if measured <? block_depth parser then
      Return (Some (new_from_symbol parser (mkEndBlock
        {| first_line := line parser; next_line := line parser;
           first_column := column parser; next_column := column parser |}
        (block_depth parser - 1))))
    else Return None.

(** ** Ordered alternation *)

Section OrderedAlternation.

(** The [parse] class methods of the symbol classes that live outside
    [parser.py]. *)
Variable external_parse : string -> Parser -> Result Exn (option Parser).

Definition Symbol_parse (symbol_type : SymbolType) (parser : Parser)
  : Result Exn (option Parser) :=
  match symbol_type with
  | EndFile => EndFile_parse parser
  | BlankLine => BlankLine_parse parser
  | EndLine => EndLine_parse parser
  | BeginBlock => BeginBlock_parse parser
  | EndBlock => EndBlock_parse parser
  | External name => external_parse name parser
  end.

(** The body of [for i, symbol_type in enumerate(one_of)], with the
    items still to visit in [rest] and the index of the first of them
    in [i]; falling out of the loop reaches the final [raise]. *)
Fixpoint parse_from (self : Parser) (one_of : list SymbolType)
         (i : nat) (rest : list SymbolType) : Result Exn Parser :=
  match rest with
  | [] => Raise (NoMatchError self one_of None)
  | symbol_type :: rest' =>
      match Symbol_parse symbol_type self with
      | Raise (NoMatchError p e c) =>
          if i =? length one_of - 1 then
            Raise (NoMatchError self one_of (Some (NoMatchError p e c)))
          else parse_from self one_of (S i) rest'
      | Raise exc => Raise exc
      | Return (Some next_parser) => Return next_parser
      | Return None => parse_from self one_of (S i) rest'
      end
  end.

Definition Parser_parse (self : Parser) (one_of : list SymbolType)
  : Result Exn Parser :=
  parse_from self one_of 0 one_of.

End OrderedAlternation.

(** A candidate that does not match: its [parse] returned [None] or
    raised [NoMatchError]. *)
Definition soft_no_match (r : Result Exn (option Parser)) : bool :=
  match r with
  | Return None => true
  | Raise e => is_NoMatchError e
  | Return (Some _) => false
  end.

(** [n] successive matches of one rule, each from the cursor the
    previous one returned; [Return None] as soon as one does not match. *)
Fixpoint match_times (rule : Parser -> Result Exn (option Parser))
         (n : nat) (parser : Parser) : Result Exn (option Parser) :=
  match n with
  | 0 => Return (Some parser)
  | S n' =>
      matched ← rule parser;
      match matched with
      | Some next_parser => match_times rule n' next_parser
      | None => Return None
      end
  end.

(** The five token classes of [parser.py]. *)
Definition is_token_rule (symbol_type : SymbolType) : bool :=
  match symbol_type with
  | External _ => false
  | _ => true
  end.

(** The position [(l1, c1)] is not after [(l2, c2)], lexicographically. *)
Definition position_le (l1 c1 l2 c2 : nat) : Prop :=
  l1 < l2 \/ (l1 = l2 /\ c1 <= c2).

(** A cursor within the clamp of [new_from_symbol]: its line index is at
    most one past [last_line], and on that extra line it is at column
    0. *)
Definition within_clamp (parser : Parser) : Prop :=
  line parser <= last_line parser + 1 /\
  (line parser = last_line parser + 1 -> column parser = 0).

(** [n] is the number of U+0020 characters [text] starts with. *)
Definition leading_spaces (text : string) (n : nat) : Prop :=
  (forall j, j < n -> String.get j text = Some " "%char) /\
  String.get n text <> Some " "%char.

(** ** The argument list rule ([language_models/argument_list.py]) *)

Module expression.

(** Modelled from the spec: the class [expression.Variable] is not among
    the sources.  The data model gives a variable a name, an optional
    type annotation and an optional default-value initializer; the two
    expressions are kept as their source text.  ([Variable] is a word
    of the vernacular, hence the underscore.) *)
Record Variable_ := {
  name : string;
  annotation : option string;
  initializer : option string;
}.

End expression.

Module argument_list.

Record Argument := mkArgument {
  variable : expression.Variable_;
  is_positional : bool;
  is_keyword : bool;
  is_extra : bool;
}.

(** The symbol classes the rule names: [parser_module.Characters[chars]],
    [parser_module.Always], [expression.Variable] and [ArgumentList]
    itself. *)
Inductive SymbolType :=
| Characters (chars : string)
| Always
| VariableType
| ArgumentListType.

#[global] Instance SymbolType_eq_dec : EqDecision SymbolType.
Proof. solve_decision. Defined.

(** Instances of those classes, and of any other symbol class. *)
Inductive Symbol :=
| mkCharacters (chars : string)
| mkAlways
| mkVariable (v : expression.Variable_)
| mkArgumentList (arguments : list Argument)
| mkOther (class_name : string).

(** [type(symbol)], where it is one of the classes above. *)
Definition type_of (symbol : Symbol) : option SymbolType :=
  match symbol with
  | mkCharacters chars => Some (Characters chars)
  | mkAlways => Some Always
  | mkVariable _ => Some VariableType
  | mkArgumentList _ => Some ArgumentListType
  | mkOther _ => None
  end.

(** [isinstance(obj, cls)] for [obj] a symbol or [None].  The classes
    are taken to be unrelated by inheritance: an instance of
    [Characters["**"]] is no instance of [Characters["*"]]. *)
Definition isinstance (obj : option Symbol) (cls : SymbolType) : bool :=
  match obj with
  | Some symbol => bool_decide (type_of symbol = Some cls)
  | None => false
  end.

(** The object itself when [isinstance(obj, expression.Variable)]. *)
Definition as_Variable (obj : option Symbol) : option expression.Variable_ :=
  match obj with
  | Some (mkVariable v) => Some v
  | _ => None
  end.

(** The exceptions of a run of [parse].  [ParseError] is an instance of
    [parser_module.ParseError]; the class declares no attribute
    ([parser.py], lines 82 to 84), so an instance holds nothing.
    [TypeError takes given] is what a call raises that passes [given]
    positional arguments, the instance counted, to a function that takes
    [takes].  [AttributeError] is what reading an attribute of [None]
    raises, and [OtherError] anything else a callee raises. *)
Inductive Exn :=
| ParseError
| TypeError (takes given : nat)
| AttributeError (message : string)
| OtherError (description : string).

(** An argument of a call. *)
Inductive Value (Cursor : Type) :=
| str_value (s : string)
| cursor_value (c : Cursor).
Arguments str_value {Cursor} s.
Arguments cursor_value {Cursor} c.

(** A call of [parser_module.ParseError] with the positional arguments
    [args].  The [__init__] that [attr.s] writes for a class without
    attributes takes the instance and nothing else, so the call returns
    an instance only when [args] is empty. *)
Definition ParseError_new {Cursor : Type} (args : list (Value Cursor))
  : Result Exn Exn :=
  match args with
  | [] => Return ParseError
  | _ :: _ => Raise (TypeError 1 (S (length args)))
  end.

(** [raise] applied to such a call: the call comes first, and what it
    raises takes the place of the instance. *)
Definition raise_ParseError {Cursor A : Type} (args : list (Value Cursor))
  : Result Exn A :=
  match ParseError_new args with
  | Return e => Raise e
  | Raise e => Raise e
  end.

(** What the rule asks of a cursor.  The cursor class this file was
    written against, and [expression.Variable.parse], are not among the
    sources; they are taken as given.  [Variable_parse cursor a i] is
    [expression.Variable.parse(cursor=cursor, parse_annotation=a,
    parse_initializer=i)]. *)
Class CursorOps (Cursor : Type) := {
  last_symbol : Cursor -> option Symbol;
  parse_one_symbol :
    Cursor -> list SymbolType -> Result Exn Cursor;
  Variable_parse :
    Cursor -> bool -> bool -> Result Exn (option Cursor);
  new_from_symbol : Cursor -> Symbol -> Cursor;
}.

Definition quote : string := String (ascii_of_nat 34) EmptyString.

Definition multiple_extra_positional : string :=
  Eval cbv in
    "multiple " +:+ quote +:+ "extra positional" +:+ quote
    +:+ " arguments found".
Definition multiple_begin_keyword_only : string :=
  Eval cbv in
    "multiple " +:+ quote +:+ "begin keyword-only" +:+ quote
    +:+ " markers found".
Definition multiple_extra_keyword : string :=
  Eval cbv in
    "multiple " +:+ quote +:+ "extra keyword" +:+ quote
    +:+ " arguments found".
Definition multiple_end_position_only : string :=
  Eval cbv in
    "multiple " +:+ quote +:+ "end position-only" +:+ quote
    +:+ " markers found".
Definition end_position_only_after_begin_keyword_only : string :=
  Eval cbv in
    quote +:+ "end position-only" +:+ quote +:+ " marker found after "
    +:+ quote +:+ "begin keyword-only" +:+ quote +:+ " marker".

(** The local variables of [ArgumentList.parse]. *)
Record Locals (Cursor : Type) := mkLocals {
  arguments : list Argument;
  saw_end_position_only_marker : bool;
  saw_begin_keyword_only_marker : bool;
  saw_extra_positionals : bool;
  saw_extra_keywords : bool;
  cursor : Cursor;
}.
Arguments mkLocals {Cursor}.
Arguments arguments {Cursor}.
Arguments saw_end_position_only_marker {Cursor}.
Arguments saw_begin_keyword_only_marker {Cursor}.
Arguments saw_extra_positionals {Cursor}.
Arguments saw_extra_keywords {Cursor}.
Arguments cursor {Cursor}.

(** How one pass through the [while True] body ends. *)
Inductive Flow (Cursor : Type) :=
| Continue (locals : Locals Cursor)
| Break (locals : Locals Cursor).
Arguments Continue {Cursor}.
Arguments Break {Cursor}.

(** The [for i, argument in enumerate(arguments)] loop of the [/]
    branch: [todo] are the items still to visit, the first at index [i];
    each assignment [arguments[i] = ...] writes the slot just read. *)
Fixpoint rewrite_from (i : nat) (todo arguments : list Argument)
  : list Argument :=
  match todo with
  | [] => arguments
  | argument :: todo' =>
      if is_extra argument then rewrite_from (S i) todo' arguments
      else
        rewrite_from (S i) todo'
          (<[i := mkArgument (variable argument) true false false]> arguments)
  end.

Definition rewrite_position_only (arguments : list Argument) : list Argument :=
  rewrite_from 0 arguments arguments.

Definition markers : list SymbolType :=
  [Characters "**"; Characters "*"; Characters "/"; Always].

Definition separators : list SymbolType := [Characters ","; Always].

Section Parse.

Context {Cursor : Type} `{CursorOps Cursor}.

(** [new_cursor.last_symbol]: an [AttributeError] when [new_cursor] is
    [None]. *)
Definition deref (new_cursor : option Cursor) : Result Exn Cursor :=
  match new_cursor with
  | Some c => Return c
  | None =>
      Raise (AttributeError "'NoneType' object has no attribute 'last_symbol'")
  end.

(** The [if]/[elif] chain on the marker just matched.  [Return None] is
    the [break] of the last branch; otherwise the locals as the chain
    leaves them. *)
Definition dispatch (l : Locals Cursor) (cursor : Cursor)
           (new_cursor : option Cursor)
  : Result Exn (option (Locals Cursor)) :=
  if isinstance (last_symbol cursor) (Characters "*") then
    nc ← deref new_cursor;
    '(arguments1, saw_extra_positionals1, cursor1) ←
      match as_Variable (last_symbol nc) with
      | Some v =>
          if saw_extra_positionals l then
            raise_ParseError
              [str_value multiple_extra_positional; cursor_value cursor]
          else
            Return (arguments l ++ [mkArgument v true false true], true, nc)
      | None => Return (arguments l, saw_extra_positionals l, cursor)
      end;
    if saw_begin_keyword_only_marker l then
      raise_ParseError
        [str_value multiple_begin_keyword_only; cursor_value cursor1]
    else
      Return (Some (mkLocals arguments1 (saw_end_position_only_marker l)
                      true saw_extra_positionals1 (saw_extra_keywords l)
                      cursor1))
  else if isinstance (last_symbol cursor) (Characters "**") then
    nc ← deref new_cursor;
    match as_Variable (last_symbol nc) with
    | None =>
        raise_ParseError (Cursor := Cursor) [str_value "expected Variable"]
    | Some v =>
        if saw_extra_keywords l then
          raise_ParseError
            [str_value multiple_extra_keyword; cursor_value cursor]
        else
          Return (Some (mkLocals
                          (arguments l ++ [mkArgument v false true true])
                          (saw_end_position_only_marker l)
                          (saw_begin_keyword_only_marker l)
                          (saw_extra_positionals l) true nc))
    end
  else if isinstance (last_symbol cursor) (Characters "/") then
    if saw_end_position_only_marker l then
      raise_ParseError
        [str_value multiple_end_position_only; cursor_value cursor]
    else if saw_begin_keyword_only_marker l then
      raise_ParseError
        [str_value end_position_only_after_begin_keyword_only;
         cursor_value cursor]
    else
      Return (Some (mkLocals (rewrite_position_only (arguments l)) true
                      (saw_begin_keyword_only_marker l)
                      (saw_extra_positionals l) (saw_extra_keywords l)
                      cursor))
  else
    match new_cursor with
    | Some nc =>
        match as_Variable (last_symbol nc) with
        | Some v =>
            Return (Some (mkLocals
                            (arguments l ++
                               [mkArgument v
                                  (negb (saw_begin_keyword_only_marker l))
                                  true false])
                            (saw_end_position_only_marker l)
                            (saw_begin_keyword_only_marker l)
                            (saw_extra_positionals l) (saw_extra_keywords l)
                            nc))
        | None => Return None
        end
    | None => Return None
    end.

(** The end of the loop body: a comma continues the list, anything else
    ends it. *)
Definition after_entry (l : Locals Cursor)
  : Result Exn (Flow Cursor) :=
  cursor' ← parse_one_symbol (cursor l) separators;
  let l' := mkLocals (arguments l) (saw_end_position_only_marker l)
              (saw_begin_keyword_only_marker l) (saw_extra_positionals l)
              (saw_extra_keywords l) cursor' in
  if isinstance (last_symbol cursor') Always then Return (Break l')
  else Return (Continue l').

(** One pass through the body of [while True]. *)
Definition loop_body (l : Locals Cursor)
  : Result Exn (Flow Cursor) :=
  cursor1 ← parse_one_symbol (cursor l) markers;
  new_cursor ← Variable_parse cursor1 true true;
  entry ← dispatch l cursor1 new_cursor;
  match entry with
  | None =>
      Return (Break (mkLocals (arguments l) (saw_end_position_only_marker l)
                       (saw_begin_keyword_only_marker l)
                       (saw_extra_positionals l) (saw_extra_keywords l)
                       cursor1))
  | Some l' => after_entry l'
  end.

(** The loop, run for at most [fuel] passes; [None] when they do not
    suffice. *)
Fixpoint parse_loop (fuel : nat) (l : Locals Cursor)
  : option (Result Exn Cursor) :=
  match fuel with
  | 0 => None
  | S fuel' =>
      match loop_body l with
      | Raise e => Some (Raise e)
      | Return (Break l') =>
          Some (Return (new_from_symbol (cursor l')
                          (mkArgumentList (arguments l'))))
      | Return (Continue l') => parse_loop fuel' l'
      end
  end.

Definition ArgumentList_parse (fuel : nat) (cursor : Cursor)
  : option (Result Exn Cursor) :=
  parse_loop fuel (mkLocals [] false false false false cursor).

(** Passes of the loop that reach the next pass: [l'] are the locals
    some number of completed passes after [l]. *)
Inductive passes : Locals Cursor -> Locals Cursor -> Prop :=
| passes_refl l : passes l l
| passes_step l l' l'' :
    loop_body l = Return (Continue l') -> passes l' l'' -> passes l l''.

(** The locals as [parse] sets them before the loop. *)
Definition start (cursor : Cursor) : Locals Cursor :=
  mkLocals [] false false false false cursor.

(** [ArgumentList.parse(cursor)] raises [e]: that is its result whenever
    the passes allowed are more than the [n] it completes first. *)
Definition parse_raises (cursor : Cursor) (e : Exn) : Prop :=
  exists n, forall fuel,
    n < fuel -> ArgumentList_parse fuel cursor = Some (Raise e).

(** On the way from [l0] to [l] a pass matched [Characters[chars]] and
    went on to the next pass. *)
Definition matched_earlier (chars : string) (l0 l : Locals Cursor) : Prop :=
  exists l1 c1 l2,
    passes l0 l1 /\
    parse_one_symbol (cursor l1) markers = Return c1 /\
    isinstance (last_symbol c1) (Characters chars) = true /\
    loop_body l1 = Return (Continue l2) /\
    passes l2 l.

End Parse.

(** *** A cursor over lexemes *)

(** Modelled from the spec: the character rules, the zero-width fallback
    and the variable rule are not among the sources.  Here the text of a
    parameter list is the sequence of its lexemes, a name or a run of
    marker characters each.  [Characters[chars]] matches that run as the
    next lexeme, [Always] matches without consuming anything, the
    alternatives are tried in the order given, and the variable rule
    takes a name when one is next and otherwise hands back the cursor it
    was given. *)
Inductive Lexeme :=
| Name (n : string)
| Mark (chars : string).

(** Modelled from the spec: a cursor, as far as the rule sees one: the
    lexemes still to read and the last symbol matched. *)
Record LexCursor := {
  remaining : list Lexeme;
  lex_last_symbol : option Symbol;
}.

(** Modelled from the spec: one candidate of the alternation tried at
    a cursor; [None] when it does not match. *)
Definition lex_match (cls : SymbolType) (c : LexCursor) : option LexCursor :=
  match cls, remaining c with
  | Characters chars, Mark chars' :: rest =>
      if String.eqb chars chars' then
        Some {| remaining := rest;
                lex_last_symbol := Some (mkCharacters chars) |}
      else None
  | Always, _ =>
      Some {| remaining := remaining c; lex_last_symbol := Some mkAlways |}
  | _, _ => None
  end.

(** Modelled from the spec: [cursor.parse_one_symbol(one_of)], the
    ordered alternation of section 4.1: the first candidate that matches
    wins. *)
Fixpoint lex_parse_one_symbol (c : LexCursor) (one_of : list SymbolType)
  : Result Exn LexCursor :=
  match one_of with
  | [] => Raise (OtherError "NoMatchError")
  | cls :: one_of' =>
      match lex_match cls c with
      | Some c' => Return c'
      | None => lex_parse_one_symbol c one_of'
      end
  end.

(** Modelled from the spec: the attempt to parse a variable right after
    the marker.  A name is consumed and becomes the last symbol; without
    one the cursor comes back as it was. *)
Definition lex_Variable_parse (c : LexCursor)
           (parse_annotation parse_initializer : bool)
  : Result Exn (option LexCursor) :=
  match remaining c with
  | Name n :: rest =>
      Return (Some {| remaining := rest;
                      lex_last_symbol :=
                        Some (mkVariable
                                {| expression.name := n;
                                   expression.annotation := None;
                                   expression.initializer := None |}) |})
  | _ => Return (Some c)
  end.

(** Modelled from the spec: [new_from_symbol] records the symbol and
    leaves the position, as it does for a symbol that is no token. *)
#[global] Instance LexCursor_ops : CursorOps LexCursor := {|
  last_symbol := lex_last_symbol;
  parse_one_symbol := lex_parse_one_symbol;
  Variable_parse := lex_Variable_parse;
  new_from_symbol c symbol :=
    {| remaining := remaining c; lex_last_symbol := Some symbol |};
|}.

(** Modelled from the spec: the variable rule with the no-match signal
    of [Symbol.parse], which [parser.py] documents as returning [None]
    when the symbol cannot be constructed: a name is consumed, and
    without one the result is [None]. *)
Definition lex_Variable_parse_or_None (c : LexCursor)
           (parse_annotation parse_initializer : bool)
  : Result Exn (option LexCursor) :=
  match remaining c with
  | Name n :: rest =>
      Return (Some {| remaining := rest;
                      lex_last_symbol :=
                        Some (mkVariable
                                {| expression.name := n;
                                   expression.annotation := None;
                                   expression.initializer := None |}) |})
  | _ => Return None
  end.

(** Modelled from the spec: the lexeme cursor with that variable rule in
    place of the one above. *)
Definition LexCursor_or_None_ops : CursorOps LexCursor := {|
  last_symbol := lex_last_symbol;
  parse_one_symbol := lex_parse_one_symbol;
  Variable_parse := lex_Variable_parse_or_None;
  new_from_symbol c symbol :=
    {| remaining := remaining c; lex_last_symbol := Some symbol |};
|}.

(** The cursor at the start of a sequence of lexemes. *)
Definition lex_start (lexemes : list Lexeme) : LexCursor :=
  {| remaining := lexemes; lex_last_symbol := None |}.

(** A variable with neither annotation nor initializer. *)
Definition var (n : string) : expression.Variable_ :=
  {| expression.name := n;
     expression.annotation := None;
     expression.initializer := None |}.

End argument_list.

(** ** Further notions used to state properties of [parser.py] *)

(** [type(symbol)]. *)
Definition class_of (symbol : Symbol) : SymbolType :=
  match symbol with
  | mkEndFile _ => EndFile
  | mkBlankLine _ => BlankLine
  | mkEndLine _ => EndLine
  | mkBeginBlock _ _ => BeginBlock
  | mkEndBlock _ _ => EndBlock
  | ExternalToken name _ | ExternalSymbol name => External name
  end.

(** Every character of [text] is whitespace. *)
Definition all_whitespace (text : string) : Prop :=
  forall i c, String.get i text = Some c -> isspace c = true.

(** ** Further notions used to state properties of [argument_list.py] *)

Section ArgumentListShapes.

Import argument_list.

(** An [*args]-like entry and a [**kwargs]-like entry. *)
Definition is_extra_positional (a : Argument) : bool :=
  is_extra a && is_positional a.

Definition is_extra_keyword (a : Argument) : bool :=
  is_extra a && is_keyword a.

(** An entry accepts its value by position, by keyword or both; an
    extra entry by exactly one of the two. *)
Definition facets_consistent (a : Argument) : Prop :=
  is_positional a || is_keyword a = true /\
  (is_extra a = true -> is_positional a = negb (is_keyword a)).

(** Among the entries that are not extra, in list order: once one
    accepts keywords all later ones do, and once one does not accept
    positions no later one does. *)
Definition in_signature_order (arguments : list Argument) : Prop :=
  forall i j a b,
    i < j ->
    arguments !! i = Some a -> arguments !! j = Some b ->
    is_extra a = false -> is_extra b = false ->
    (is_keyword a = true -> is_keyword b = true) /\
    (is_positional b = true -> is_positional a = true).

(** What the flags of [parse] say about the list built so far. *)
Definition flags_describe_list {Cursor : Type} (l : Locals Cursor) : Prop :=
  length (List.filter is_extra_positional (arguments l))
  = Nat.b2n (saw_extra_positionals l) /\
  length (List.filter is_extra_keyword (arguments l))
  = Nat.b2n (saw_extra_keywords l) /\
  Forall facets_consistent (arguments l) /\
  in_signature_order (arguments l) /\
  (saw_begin_keyword_only_marker l = false ->
   Forall (fun a => is_extra a = false -> is_positional a = true)
          (arguments l)).

End ArgumentListShapes.

(** ** Namespaces and constructs ([compiler/constructs.py]) *)

Module constructs.

(** Namespace objects are mutable and refer to one another: they live
    in a store, and a reference to one is its address there.  Every
    method body runs under the object's re-entrant lock; with a single
    thread of control the lock changes nothing and is left out. *)
Abbreviation Ref := nat.

(** [ConstructBase], with the fields every construct has.  [Method] and
    [Attribute] add none. *)
Record ConstructBase := {
  name : string;
  namespace : Ref;
}.

(** A [Namespace] object.  [_members] is a [dict]: its keys in the order
    they were inserted, each with its value. *)
Record Namespace := {
  _name : option string;
  _parent : option Ref;
  _construct : option ConstructBase;
  _members : list (string * Ref);
}.

Abbreviation Store := (list Namespace).

(** The argument of a [ValueError]: one of the two fixed texts, or
    ['{} already declared'] formatted with [list(self.path)], which is
    kept as that list. *)
Inductive Message :=
| already_declared (path : list string)
| text (s : string).

Inductive Exn :=
| KeyError (key : string)
| ValueError (message : Message).

(** [d.get(key)] on a dict. *)
Fixpoint dict_get (key : string) (d : list (string * Ref)) : option Ref :=
  match d with
  | [] => None
  | (k, v) :: d' => if String.eqb key k then Some v else dict_get key d'
  end.

(** [d[key] = value]: a known key keeps its place, a new one goes
    last. *)
Fixpoint dict_set (key : string) (value : Ref) (d : list (string * Ref))
  : list (string * Ref) :=
  match d with
  | [] => [(key, value)]
  | (k, v) :: d' =>
      if String.eqb key k then (k, value) :: d'
      else (k, v) :: dict_set key value d'
  end.

(** An assignment to an attribute of the object at [ref]. *)
Definition assign (store : Store) (ref : Ref) (f : Namespace -> Namespace)
  : option Store :=
  obj ← store !! ref;
  Some (<[ref := f obj]> store).

Definition set_members (members : list (string * Ref)) (obj : Namespace)
  : Namespace :=
  {| _name := _name obj; _parent := _parent obj;
     _construct := _construct obj; _members := members |}.

Definition set_name (n : string) (obj : Namespace) : Namespace :=
  {| _name := Some n; _parent := _parent obj;
     _construct := _construct obj; _members := _members obj |}.

Definition set_parent (p : Ref) (obj : Namespace) : Namespace :=
  {| _name := _name obj; _parent := Some p;
     _construct := _construct obj; _members := _members obj |}.

Definition set_construct (c : ConstructBase) (obj : Namespace) : Namespace :=
  {| _name := _name obj; _parent := _parent obj;
     _construct := Some c; _members := _members obj |}.

(** [Namespace()]: a new object with the attribute defaults. *)
Definition Namespace_new (store : Store) : Ref * Store :=
  (length store,
   store ++ [{| _name := None; _parent := None;
                _construct := None; _members := [] |}]).

(** [self[name]].  The result is [None] only when [self] is no object of
    the store. *)
Definition Namespace_getitem (store : Store) (self : Ref) (name : string)
  : option (Ref * Store) :=
  obj ← store !! self;
  store' ←
    match dict_get name (_members obj) with
    | Some _ => Some store
    | None =>
        let '(child, store1) := Namespace_new store in
        store2 ← assign store1 self
                   (fun o => set_members (dict_set name child (_members o)) o);
        store3 ← assign store2 child (set_name name);
        assign store3 child (set_parent self)
    end;
  obj' ← store' !! self;
  found ← dict_get name (_members obj');
  Some (found, store').

(** [self.resolve(name)], following at most [fuel] objects up the chain
    of parents. *)
Fixpoint resolve_within (fuel : nat) (store : Store) (self : Ref)
         (name : string) : option (Result Exn Ref) :=
  match fuel with
  | 0 => None
  | S fuel' =>
      obj ← store !! self;
      match dict_get name (_members obj) with
      | Some found => Some (Return found)
      | None =>
          match _parent obj with
          | Some parent => resolve_within fuel' store parent name
          | None => Some (Raise (KeyError name))
          end
      end
  end.

(** [self.resolve(name)].  A chain of parents that never ends has no
    result; a chain without repetition is no longer than the store. *)
Definition Namespace_resolve (store : Store) (self : Ref) (name : string)
  : option (Result Exn Ref) :=
  resolve_within (length store) store self name.

(** [list(self.path)], following at most [fuel] objects up the chain of
    parents.  A name that is [None] or empty is left out. *)
Fixpoint path_within (fuel : nat) (store : Store) (self : Ref)
  : option (list string) :=
  match fuel with
  | 0 => None
  | S fuel' =>
      obj ← store !! self;
      above ← match _parent obj with
              | Some parent => path_within fuel' store parent
              | None => Some []
              end;
      Some (above ++ match _name obj with
                     | Some n => if String.eqb n "" then [] else [n]
                     | None => []
                     end)
  end.

Definition Namespace_path (store : Store) (self : Ref)
  : option (list string) :=
  path_within (length store) store self.

(** [list(self.members)]. *)
Definition Namespace_members (store : Store) (self : Ref)
  : option (list Ref) :=
  obj ← store !! self;
  Some (map snd (_members obj)).

(** [self.construct]. *)
Definition Namespace_construct (store : Store) (self : Ref)
  : option (option ConstructBase) :=
  obj ← store !! self;
  Some (_construct obj).

(** [self.construct = construct]. *)
Definition Namespace_construct_setter (store : Store) (self : Ref)
           (construct : ConstructBase)
  : option (Result Exn unit * Store) :=
  obj ← store !! self;
  match _construct obj with
  | Some _ =>
      path ← Namespace_path store self;
      Some (Raise (ValueError (already_declared path)), store)
  | None =>
      if negb (bool_decide (_parent obj = Some (namespace construct))) then
        Some (Raise (ValueError
                       (text "construct.namespace must be the parent namespace")),
              store)
      else if negb (bool_decide (_name obj = Some (name construct))) then
        Some (Raise (ValueError
                       (text "construct.name must match this namespace")),
              store)
      else
        store' ← assign store self (set_construct construct);
        Some (Return (), store')
  end.

(** Creating a construct: the fields are set and the validator
    [_declare_with_namespace] runs [namespace[self.name].construct =
    self]; what it raises ends the creation. *)
Definition ConstructBase_new (store : Store) (name : string) (namespace : Ref)
  : option (Result Exn ConstructBase * Store) :=
  let self := {| name := name; namespace := namespace |} in
  '(child, store1) ← Namespace_getitem store namespace name;
  '(outcome, store2) ← Namespace_construct_setter store1 child self;
  Some (match outcome with
        | Return _ => Return self
        | Raise e => Raise e
        end, store2).

(** The [k]-th object up the chain of parents of [self]; [self] itself
    for [k = 0]. *)
Fixpoint ancestor (store : Store) (k : nat) (self : Ref) : option Ref :=
  match k with
  | 0 => Some self
  | S k' =>
      obj ← store !! self;
      parent ← _parent obj;
      ancestor store k' parent
  end.

(** [owner] holds [name] among its members. *)
Definition has_member (store : Store) (owner : Ref) (name : string)
           (found : Ref) : Prop :=
  exists obj, store !! owner = Some obj /\
              dict_get name (_members obj) = Some found.

Definition lacks_member (store : Store) (owner : Ref) (name : string) : Prop :=
  exists obj, store !! owner = Some obj /\
              dict_get name (_members obj) = None.

(** The shape [__getitem__] and the [construct] setter keep: a parent
    was created before its children, a member filed under a name is an
    object with that name and with the holder as its parent, and a
    construct sits where its own name and namespace say. *)
Definition consistent (store : Store) : Prop :=
  forall ref obj, store !! ref = Some obj ->
    (forall parent, _parent obj = Some parent -> parent < ref) /\
    (forall n child, dict_get n (_members obj) = Some child ->
       exists cobj, store !! child = Some cobj /\
                    _name cobj = Some n /\ _parent cobj = Some ref) /\
    (forall c, _construct obj = Some c ->
       _name obj = Some (name c) /\ _parent obj = Some (namespace c)).

(** A store for examples: a root namespace holding [a], which holds
    [b]. *)
Definition nested_store : Store :=
  [{| _name := None; _parent := None; _construct := None;
      _members := [("a", 1)] |};
   {| _name := Some "a"; _parent := Some 0; _construct := None;
      _members := [("b", 2)] |};
   {| _name := Some "b"; _parent := Some 1; _construct := None;
      _members := [] |}].

End constructs.

(** * Properties *)

(** ** Ordered alternation *)

Section OrderedAlternationFacts.

Variable external_parse : string -> Parser -> Result Exn (option Parser).
Variable self : Parser.

Abbreviation sym_parse := (Symbol_parse external_parse).
Abbreviation no_match := (fun s => soft_no_match (sym_parse s self) = true).

(** Candidates that do not match are passed over, as long as one more
    candidate follows them. *)
Lemma parse_from_skip one_of pre rest i :
  i + length (pre ++ rest) = length one_of ->
  rest <> [] ->
  Forall no_match pre ->
  parse_from external_parse self one_of i (pre ++ rest)
  = parse_from external_parse self one_of (i + length pre) rest.
Proof.
  intros Hlen Hrest Hpre. revert i Hlen.
  induction Hpre as [|s pre Hs _ IH]; intros i Hlen; simpl.
  - by rewrite Nat.add_0_r.
  - simpl in Hlen. rewrite length_app in Hlen.
    assert (0 < length rest) by (destruct rest; simpl; [done | lia]).
    replace (i + S (length pre)) with (S i + length pre) by lia.
    rewrite <- IH by (rewrite length_app; lia).
    destruct (sym_parse s self) as [[next|]|e]; simpl in Hs; try done.
    destruct e; simpl in Hs; try done.
    destruct (Nat.eqb_spec i (length one_of - 1)); [lia | done].
Qed.

(** When no candidate matches, the final error names the cursor the
    search started from and the whole list. *)
Lemma parse_from_all_fail one_of rest i :
  i + length rest = length one_of ->
  Forall no_match rest ->
  exists cause,
    parse_from external_parse self one_of i rest
    = Raise (NoMatchError self one_of cause).
Proof.
  intros Hlen Hrest. revert i Hlen.
  induction Hrest as [|s rest Hs _ IH]; intros i Hlen; simpl.
  - by exists None.
  - simpl in Hlen.
    destruct (sym_parse s self) as [[next|]|e]; simpl in Hs; try done.
    + apply IH. lia.
    + destruct e; simpl in Hs; try done.
      destruct (i =? length one_of - 1); [by eexists | apply IH; lia].
Qed.

(** A result is always the result of some candidate, and every
    candidate before that one did not match. *)
Lemma parse_from_Return_inv one_of rest i next :
  parse_from external_parse self one_of i rest = Return next ->
  exists pre c post,
    rest = pre ++ c :: post /\ Forall no_match pre /\
    sym_parse c self = Return (Some next).
Proof.
  revert i. induction rest as [|s rest IH]; intros i; simpl; [done|].
  destruct (sym_parse s self) as [[p|]|e] eqn:Hs.
  - intros [= ->]. by exists [], s, rest.
  - intros (pre & c & post & -> & Hpre & Hc)%IH.
    exists (s :: pre), c, post. split_and!; [done | | done].
    constructor; [by rewrite Hs | done].
  - destruct e; try done.
    destruct (i =? length one_of - 1); [done|].
    intros (pre & c & post & -> & Hpre & Hc)%IH.
    exists (s :: pre), c, post. split_and!; [done | | done].
    constructor; [by rewrite Hs | done].
Qed.

End OrderedAlternationFacts.

(** C1.  [Parser.parse] returns exactly the result of the first candidate,
    in list order, whose [parse] returns a cursor: every candidate before
    it returned [None] or raised [NoMatchError] and was passed over, and
    what follows it in the list has no influence. *)
Theorem Parser_parse_first_success
        (external_parse : string -> Parser -> Result Exn (option Parser))
        (self : Parser) (one_of : list SymbolType) (next : Parser) :
  Parser_parse external_parse self one_of = Return next <->
  exists pre c post,
    one_of = pre ++ c :: post /\
    Forall (fun s =>
              soft_no_match (Symbol_parse external_parse s self) = true) pre /\
    Symbol_parse external_parse c self = Return (Some next).
Proof.
  split.
  - apply parse_from_Return_inv.
  - intros (pre & c & post & -> & Hpre & Hc). unfold Parser_parse.
    rewrite parse_from_skip; [| done | done | done].
    simpl. by rewrite Hc.
Qed.

(** A source of one whitespace-only line, made of a single tab. *)
Example Parser_parse_first_success_blank_line :
  Parser_parse (fun _ _ => Return None)
    (Parser_new [String (ascii_of_nat 9) ""])
    [EndFile; External "Statement"; BlankLine; EndLine]
  = Return {| _lines := [String (ascii_of_nat 9) ""];
              line := 1; column := 0;
              last_symbol := Some (mkBlankLine
                {| first_line := 0; next_line := 1;
                   first_column := 0; next_column := 0 |});
              block_depth := 0 |}.
Proof.
  apply Parser_parse_first_success.
  exists [EndFile; External "Statement"], BlankLine, [EndLine].
  split_and!; [done | | done]. by repeat constructor.
Defined.

(** C5.  When every candidate returns [None] or raises [NoMatchError],
    [Parser.parse] raises a [NoMatchError] whose cursor is the cursor it
    was called on and whose expected symbols are the whole candidate
    list, in order. *)
Theorem Parser_parse_all_fail
        (external_parse : string -> Parser -> Result Exn (option Parser))
        (self : Parser) (one_of : list SymbolType) :
  Forall (fun s =>
            soft_no_match (Symbol_parse external_parse s self) = true)
         one_of ->
  exists cause,
    Parser_parse external_parse self one_of
    = Raise (NoMatchError self one_of cause).
Proof.
  intros Hall. by apply parse_from_all_fail.
Qed.

(** On the text ["x"] at column 0 neither the end of the file, nor a
    rule that raises [NoMatchError] itself, nor a blank line matches. *)
Lemma Parser_parse_all_fail_witness :
  let nested := fun (_ : string) (p : Parser) =>
                  Raise (NoMatchError p [EndLine] None) in
  exists cause,
    Parser_parse nested (Parser_new ["x"])
      [EndFile; External "Block"; BlankLine]
    = Raise (NoMatchError (Parser_new ["x"])
               [EndFile; External "Block"; BlankLine] cause).
Proof.
  intros nested.
  apply (Parser_parse_all_fail nested (Parser_new ["x"])
           [EndFile; External "Block"; BlankLine]).
  by repeat constructor.
Defined.

(** C6.  When the first candidate that does anything but fail softly
    raises an exception other than [NoMatchError] (an [IndentationError],
    a [ParseError] of another rule), [Parser.parse] raises that very
    exception, whatever candidates follow in the list. *)
Theorem Parser_parse_hard_error
        (external_parse : string -> Parser -> Result Exn (option Parser))
        (self : Parser) (pre : list SymbolType) (c : SymbolType)
        (post : list SymbolType) (e : Exn) :
  Forall (fun s =>
            soft_no_match (Symbol_parse external_parse s self) = true) pre ->
  Symbol_parse external_parse c self = Raise e ->
  is_NoMatchError e = false ->
  Parser_parse external_parse self (pre ++ c :: post) = Raise e.
Proof.
  intros Hpre Hc He. unfold Parser_parse.
  rewrite parse_from_skip; [| done | done | done].
  simpl. rewrite Hc. by destruct e.
Qed.

(** A line holding only a tab: [BeginBlock] stops the search with an
    [IndentationError] although [BlankLine], next in the list, would
    match. *)
Lemma Parser_parse_hard_error_witness :
  let self := Parser_new [String (ascii_of_nat 9) ""] in
  let e := IndentationError
             "each block must be indented four spaces (other whitespace found)"
             0 0 in
  (exists next, BlankLine_parse self = Return (Some next)) /\
  Parser_parse (fun _ _ => Return None) self
    ([EndFile] ++ BeginBlock :: [BlankLine; EndLine]) = Raise e.
Proof.
  intros self e. split; [by eexists|].
  apply (Parser_parse_hard_error (fun _ _ => Return None) self
           [EndFile] BeginBlock [BlankLine; EndLine] e);
    [by repeat constructor | done | done].
Defined.

(** ** Indentation *)

Lemma is_blank_spec c : is_blank c = true <-> c = " "%char.
Proof.
  unfold is_blank. rewrite Nat.eqb_eq. split.
  - intros Hc. rewrite <- (ascii_nat_embedding c), Hc. done.
  - by intros ->.
Qed.

Lemma leading_spaces_take_while text :
  leading_spaces text (String.length (take_while is_blank text)).
Proof.
  induction text as [|c text [IH1 IH2]];
    [split; [intros j Hj; simpl in Hj; lia | done]|].
  cbn [take_while]. destruct (is_blank c) eqn:Hc.
  - apply (proj1 (is_blank_spec c)) in Hc. subst c. split; [|done].
    intros [|j] Hj; [done|]. apply IH1. simpl in Hj. lia.
  - split; [intros j Hj; simpl in Hj; lia|].
    intros [= Heq]. apply (proj2 (is_blank_spec c)) in Heq. congruence.
Qed.

Lemma leading_spaces_unique text n m :
  leading_spaces text n -> leading_spaces text m -> n = m.
Proof.
  intros [Hn1 Hn2] [Hm1 Hm2].
  destruct (Nat.lt_trichotomy n m) as [Hlt | [-> | Hlt]]; [|done|].
  - by apply Hm1 in Hlt.
  - by apply Hn1 in Hlt.
Qed.

(** Group 2 of the match is empty unless the character right after the
    leading run of U+0020 is whitespace. *)
Lemma group2_empty text :
  is_empty (group2 (_INDENT_REGEX_match text))
  = negb match String.get (String.length (take_while is_blank text)) text with
         | Some c => isspace c
         | None => false
         end.
Proof.
  unfold _INDENT_REGEX_match. cbn [group2].
  induction text as [|c text IH]; [done|].
  cbn [take_while drop_while]. destruct (is_blank c); [done|].
  cbn [String.length String.get take_while]. by destruct (isspace c).
Qed.

Lemma match_end_no_group2 text :
  is_empty (group2 (_INDENT_REGEX_match text)) = true ->
  match_end (_INDENT_REGEX_match text)
  = String.length (take_while is_blank text).
Proof.
  unfold match_end. destruct (group2 _); [simpl; lia | done].
Qed.

(** C4.  With [n] the number of leading U+0020 of the current line,
    [_measure_block_depth] raises an [IndentationError] exactly when
    (a) the character after those spaces is whitespace, which is to say
    that the whitespace the line starts with holds a character other
    than U+0020, first at index [n]: message "other whitespace found",
    column [n]; or else (b) [n] is not
    a multiple of four: message "extra spaces found", column the largest
    multiple of four below [n]; or else (c) [n / 4] exceeds the cursor's
    block depth by more than one: message "block over-indented", column
    four times the depth plus one.  Otherwise it returns [n / 4].  The
    line of the error is the cursor's line. *)
Theorem measure_block_depth_cases (parser : Parser) (n : nat) :
  leading_spaces (line_text parser None) n ->
  let other :=
    exists c, String.get n (line_text parser None) = Some c /\
              isspace c = true in
  (other ->
   _measure_block_depth parser
   = Raise (IndentationError
              "each block must be indented four spaces (other whitespace found)"
              (line parser) n)) /\
  (~ other -> n mod 4 <> 0 ->
   _measure_block_depth parser
   = Raise (IndentationError
              "each block must be indented four spaces (extra spaces found)"
              (line parser) (4 * (n / 4))) /\
   4 * (n / 4) < n < 4 * (n / 4) + 4) /\
  (~ other -> n mod 4 = 0 -> block_depth parser + 1 < n / 4 ->
   _measure_block_depth parser
   = Raise (IndentationError
              "each block must be indented four spaces (block over-indented)"
              (line parser) (4 * (block_depth parser + 1)))) /\
  (~ other -> n mod 4 = 0 -> n / 4 <= block_depth parser + 1 ->
   _measure_block_depth parser = Return (n / 4)) /\
  ((exists e, _measure_block_depth parser = Raise e) <->
   other \/ n mod 4 <> 0 \/ block_depth parser + 1 < n / 4) /\
  (other <->
   exists i c,
     String.get i (line_text parser None) = Some c /\
     isspace c = true /\ c <> " "%char /\
     forall j, j < i ->
       exists d, String.get j (line_text parser None) = Some d /\
                 isspace d = true).
Proof.
  intros Hn other.
  assert (n = String.length (take_while is_blank (line_text parser None)))
    as Hlen by eauto using leading_spaces_unique, leading_spaces_take_while.
  pose proof (group2_empty (line_text parser None)) as Hg2.
  pose proof (match_end_no_group2 (line_text parser None)) as Hend.
  rewrite <- Hlen in Hg2, Hend.
  assert (other \/ ~ other) as Hdec.
  { subst other. destruct (String.get n _) as [c|]; [|right; by intros (? & ? & ?)].
    destruct (isspace c) eqn:Hc; [left; by exists c|].
    right. intros (c' & [= <-] & ?). congruence. }
  assert (other ->
          is_empty (group2 (_INDENT_REGEX_match (line_text parser None)))
          = false) as Hyes.
  { intros (c & Hc & Hsp). by rewrite Hg2, Hc, Hsp. }
  assert (~ other ->
          is_empty (group2 (_INDENT_REGEX_match (line_text parser None)))
          = true) as Hno.
  { intros Hnot. rewrite Hg2. destruct (String.get n _) as [c|]; [|done].
    destruct (isspace c) eqn:Hc; [|done]. destruct Hnot. by exists c. }
  pose proof (Nat.div_mod_eq n 4) as Hdiv.
  pose proof (Nat.mod_upper_bound n 4) as Hmod.
  unfold _measure_block_depth, match_start2.
  assert (forall A (x y : A), (if negb true then x else y) = y) as Hif1 by done.
  assert (forall A (x y : A), (if negb false then x else y) = x) as Hif0 by done.
  split_and!.
  - intros Ho. rewrite (Hyes Ho), Hif0.
    unfold _INDENT_REGEX_match. cbn [group1]. by rewrite <- Hlen.
  - intros Ho Hrem. rewrite (Hno Ho), Hif1, (Hend (Hno Ho)). cbv zeta.
    split; [|lia].
    destruct (Nat.eqb_spec (n mod 4) 0); [done|].
    by rewrite Hif0, (Nat.mul_comm _ 4).
  - intros Ho Hrem Hover. rewrite (Hno Ho), Hif1, (Hend (Hno Ho)). cbv zeta.
    rewrite Hrem, Nat.eqb_refl, Hif1.
    destruct (Nat.ltb_spec (block_depth parser + 1) (n / 4)); [|lia].
    by rewrite (Nat.mul_comm _ 4).
  - intros Ho Hrem Hfit. rewrite (Hno Ho), Hif1, (Hend (Hno Ho)). cbv zeta.
    rewrite Hrem, Nat.eqb_refl, Hif1.
    destruct (Nat.ltb_spec (block_depth parser + 1) (n / 4)); [lia|done].
  - split.
    + intros [e He]. destruct Hdec as [Ho|Ho]; [by left|right].
      rewrite (Hno Ho), Hif1, (Hend (Hno Ho)) in He. cbv zeta in He.
      destruct (Nat.eqb_spec (n mod 4) 0) as [Hrem|]; [|by left].
      rewrite Hif1 in He. right.
      destruct (Nat.ltb_spec (block_depth parser + 1) (n / 4)); done.
    + destruct Hdec as [Ho|Ho].
      * intros _. rewrite (Hyes Ho), Hif0. by eexists.
      * intros [?|[Hrem|Hover]]; [done| |];
          rewrite (Hno Ho), Hif1, (Hend (Hno Ho)); cbv zeta.
        -- destruct (Nat.eqb_spec (n mod 4) 0); [done|].
           rewrite Hif0. by eexists.
        -- destruct (n mod 4 =? 0); [rewrite Hif1 | rewrite Hif0; by eexists].
           destruct (Nat.ltb_spec (block_depth parser + 1) (n / 4));
             [by eexists | lia].
  - destruct Hn as [Hspaces Hstop]. split.
    + intros (c & Hc & Hsp). exists n, c. split_and!; [done | done | |].
      * intros ->. by rewrite Hc in Hstop.
      * intros j Hj. exists " "%char. split; [by apply Hspaces | done].
    + intros (i & c & Hc & Hsp & Hne & Hbefore).
      destruct (Nat.lt_trichotomy i n) as [Hlt | [-> | Hgt]].
      * apply Hspaces in Hlt. congruence.
      * by exists c.
      * by apply Hbefore in Hgt.
Qed.

(** Eight leading spaces at depth 0: case (c), reported at column 4. *)
Lemma measure_block_depth_cases_witness :
  leading_spaces (line_text (Parser_new ["        x"]) None) 8 /\
  _measure_block_depth (Parser_new ["        x"])
  = Raise (IndentationError
             "each block must be indented four spaces (block over-indented)"
             0 4).
Proof.
  assert (leading_spaces (line_text (Parser_new ["        x"]) None) 8) as H8.
  { split; [|done]. intros j Hj. do 8 (destruct j as [|j]; [done|]). lia. }
  split; [done|].
  destruct (measure_block_depth_cases (Parser_new ["        x"]) 8 H8)
    as (_ & _ & Hover & _ & _ & _).
  apply Hover; [|done|simpl; lia].
  intros (c & [= <-] & Hc). done.
Defined.

(** ** Token rules *)

Lemma bind_Return {E A B} (a : A) (k : A -> Result E B) :
  Return a ≫= k = k a.
Proof. done. Qed.

Lemma bind_Raise {E A B} (e : E) (k : A -> Result E B) :
  (Raise e : Result E A) ≫= k = Raise e.
Proof. done. Qed.

Lemma line_text_past_end parser :
  length (_lines parser) <= line parser -> line_text parser None = "".
Proof.
  intros Hle. unfold line_text.
  by destruct (Nat.ltb_spec (line parser) (length (_lines parser))); [lia|].
Qed.

Lemma last_line_succ_past_end parser :
  length (_lines parser) <= last_line parser + 1.
Proof. unfold last_line. lia. Qed.

Lemma last_line_in_range parser :
  line parser < length (_lines parser) -> line parser <= last_line parser.
Proof. unfold last_line. lia. Qed.

Lemma measure_empty_line parser :
  line_text parser None = "" ->
  _measure_block_depth parser = Return 0.
Proof. intros Htext. unfold _measure_block_depth. by rewrite Htext. Qed.

(** The measured depth of a line depends on the cursor's own depth only
    through the over-indentation check. *)
Lemma measure_other_depth p q m :
  _lines p = _lines q -> line p = line q ->
  _measure_block_depth p = Return m ->
  m <= block_depth q + 1 ->
  _measure_block_depth q = Return m.
Proof.
  intros Hlines Hline Hp Hfit.
  assert (line_text q None = line_text p None) as Htext
    by (unfold line_text; by rewrite Hlines, Hline).
  unfold _measure_block_depth in *. rewrite Htext. cbv zeta in *.
  set (d := match_end _ / 4) in *.
  destruct (negb (is_empty _)); [done|].
  destruct (negb (_ =? 0)); [done|].
  destruct (block_depth p + 1 <? d); [done|]. injection Hp as ->.
  by destruct (Nat.ltb_spec (block_depth q + 1) m); [lia|].
Qed.

Lemma BeginBlock_parse_inv parser next :
  BeginBlock_parse parser = Return (Some next) ->
  column parser = 0 /\
  (exists m, _measure_block_depth parser = Return m /\
             block_depth parser < m) /\
  next = new_from_symbol parser (mkBeginBlock
           {| first_line := line parser; next_line := line parser;
              first_column := column parser; next_column := column parser |}
           (block_depth parser + 1)).
Proof.
  unfold BeginBlock_parse.
  destruct (Nat.eqb_spec (column parser) 0) as [Hcol|]; [|done].
  cbn [negb]. destruct (_measure_block_depth parser) as [m|e]; [|done].
  rewrite bind_Return. destruct (Nat.ltb_spec (block_depth parser) m); [|done].
  intros [= <-]. eauto.
Qed.

Lemma EndBlock_parse_inv parser next :
  EndBlock_parse parser = Return (Some next) ->
  column parser = 0 /\
  (exists m, _measure_block_depth parser = Return m /\
             m < block_depth parser) /\
  next = new_from_symbol parser (mkEndBlock
           {| first_line := line parser; next_line := line parser;
              first_column := column parser; next_column := column parser |}
           (block_depth parser - 1)).
Proof.
  unfold EndBlock_parse.
  destruct (Nat.eqb_spec (column parser) 0) as [Hcol|]; [|done].
  cbn [negb]. destruct (_measure_block_depth parser) as [m|e]; [|done].
  rewrite bind_Return. destruct (Nat.ltb_spec m (block_depth parser)); [|done].
  intros [= <-]. eauto.
Qed.

(** A line that [BeginBlock] matches is a line of the source. *)
Lemma BeginBlock_line_in_range parser next :
  BeginBlock_parse parser = Return (Some next) ->
  line parser < length (_lines parser).
Proof.
  intros (_ & (m & Hm & Hlt) & _)%BeginBlock_parse_inv.
  destruct (Nat.lt_ge_cases (line parser) (length (_lines parser)))
    as [|Hge]; [done|].
  rewrite (measure_empty_line parser) in Hm
    by by apply line_text_past_end.
  injection Hm as <-. lia.
Qed.

(** From a cursor [k] levels deeper than its line, [k] successive
    [EndBlock] matches stay where they are and lose one level each. *)
Lemma EndBlock_repeated k : forall parser m,
  column parser = 0 ->
  line parser <= last_line parser + 1 ->
  _measure_block_depth parser = Return m ->
  block_depth parser = m + k ->
  exists final,
    match_times EndBlock_parse k parser = Return (Some final) /\
    block_depth final = m /\ line final = line parser /\
    column final = 0 /\ EndBlock_parse final = Return None.
Proof.
  induction k as [|k IH]; intros parser m Hcol Hline Hm Hdepth.
  - exists parser. split_and!; [done | lia | done | done |].
    unfold EndBlock_parse. rewrite Hcol, Hm, bind_Return. cbn [Nat.eqb negb].
    by destruct (Nat.ltb_spec m (block_depth parser)); [lia|].
  - set (next := new_from_symbol parser (mkEndBlock
           {| first_line := line parser; next_line := line parser;
              first_column := column parser; next_column := column parser |}
           (block_depth parser - 1))).
    assert (EndBlock_parse parser = Return (Some next)) as Hstep.
    { unfold EndBlock_parse.
      destruct (Nat.eqb_spec (column parser) 0); [|done].
      cbn [negb]. rewrite Hm, bind_Return.
      by destruct (Nat.ltb_spec m (block_depth parser)); [|lia]. }
    assert (line next = line parser) as Hl by (simpl; lia).
    destruct (IH next m) as (final & Hrun & ? & ? & ? & ?).
    + simpl. by rewrite Hcol.
    + rewrite Hl. by unfold last_line in *.
    + apply (measure_other_depth parser); [done | done | done |].
      simpl. lia.
    + simpl. lia.
    + exists final. split_and!; [|done|congruence|done|done].
      cbn [match_times]. by rewrite Hstep, bind_Return.
Qed.

(** The cursor a parse starts from, and every cursor [new_from_symbol]
    makes, has a line index of at most [last_line + 1]. *)
Lemma Parser_new_line_clamped lines :
  line (Parser_new lines) <= last_line (Parser_new lines) + 1.
Proof. simpl. lia. Qed.

Lemma new_from_symbol_line_clamped self symbol :
  line (new_from_symbol self symbol)
  <= last_line (new_from_symbol self symbol) + 1.
Proof.
  unfold new_from_symbol, last_line.
  destruct (as_token symbol) as [t|]; simpl; lia.
Qed.

(** C3.  Take a cursor at column 0 whose line index is at most
    [last_line + 1], as the line index of every cursor of a parse is.  A
    [BeginBlock] match adds exactly one to the block depth and an
    [EndBlock] match takes exactly one off, however far the indentation
    of the line is from the cursor's depth, and both leave line and
    column where they were.  So a dedent of [k] levels is consumed by [k]
    successive [EndBlock] matches at one position, one level each, after
    which [EndBlock] no longer matches. *)
Theorem block_tokens_single_step (parser : Parser) :
  column parser = 0 ->
  line parser <= last_line parser + 1 ->
  (forall next, BeginBlock_parse parser = Return (Some next) ->
     block_depth next = block_depth parser + 1 /\
     line next = line parser /\ column next = column parser) /\
  (forall next, EndBlock_parse parser = Return (Some next) ->
     block_depth next + 1 = block_depth parser /\
     line next = line parser /\ column next = column parser) /\
  (forall m k,
     _measure_block_depth parser = Return m ->
     block_depth parser = m + k ->
     exists final,
       match_times EndBlock_parse k parser = Return (Some final) /\
       block_depth final = m /\ line final = line parser /\
       column final = column parser /\
       EndBlock_parse final = Return None).
Proof.
  intros Hcol Hline. split_and!.
  - intros next Hnext.
    pose proof (BeginBlock_line_in_range _ _ Hnext) as Hrange.
    apply last_line_in_range in Hrange.
    apply BeginBlock_parse_inv in Hnext as (_ & _ & ->). simpl. lia.
  - intros next (_ & (m & _ & Hlt) & ->)%EndBlock_parse_inv. simpl. lia.
  - intros m k Hm Hdepth.
    destruct (EndBlock_repeated k parser m) as (final & ? & ? & ? & ? & ?);
      [done..|].
    exists final. split_and!; [done | done | done | congruence | done].
Qed.

(** A cursor two levels deep in front of an unindented line. *)
Lemma block_tokens_single_step_witness :
  let p := {| _lines := ["        a"; "b"]; line := 1; column := 0;
              last_symbol := None; block_depth := 2 |} in
  column p = 0 /\ line p <= last_line p + 1 /\
  (exists next,
     EndBlock_parse p = Return (Some next) /\
     block_depth next + 1 = block_depth p /\
     line next = line p /\ column next = column p) /\
  exists final,
    match_times EndBlock_parse 2 p = Return (Some final) /\
    block_depth final = 0 /\ line final = 1 /\ column final = 0 /\
    EndBlock_parse final = Return None.
Proof.
  intros p.
  assert (line p <= last_line p + 1) as Hline by (unfold last_line; simpl; lia).
  split; [done|]. split; [exact Hline|].
  destruct (block_tokens_single_step p eq_refl Hline)
    as (_ & Hend & Hdedent).
  split.
  - eexists. split; [reflexivity|]. by apply Hend.
  - exact (Hdedent 0 2 eq_refl eq_refl).
Defined.

Lemma EndFile_parse_inv parser next :
  EndFile_parse parser = Return (Some next) ->
  next = new_from_symbol parser (mkEndFile
           {| first_line := line parser; next_line := line parser;
              first_column := column parser; next_column := column parser |}).
Proof.
  unfold EndFile_parse.
  destruct (_ <=? line parser); [|done].
  destruct (_ <=? column parser); [|done]. by intros [= <-].
Qed.

Lemma BlankLine_parse_inv parser next :
  BlankLine_parse parser = Return (Some next) ->
  column parser = 0 /\
  next = new_from_symbol parser (mkBlankLine
           {| first_line := line parser; next_line := line parser + 1;
              first_column := 0; next_column := 0 |}).
Proof.
  unfold BlankLine_parse.
  destruct (Nat.eqb_spec (column parser) 0); [|done]. cbn [negb].
  destruct (is_empty _); [|done]. by intros [= <-].
Qed.

Lemma EndLine_parse_inv parser next :
  EndLine_parse parser = Return (Some next) ->
  next = new_from_symbol parser (mkEndLine
           {| first_line := line parser; next_line := line parser + 1;
              first_column := column parser; next_column := 0 |}).
Proof.
  unfold EndLine_parse.
  destruct (_ <=? column parser); [|done]. by intros [= <-].
Qed.

(** The cursor a parse starts from is within the clamp. *)
Lemma within_clamp_Parser_new lines : within_clamp (Parser_new lines).
Proof. split; simpl; [lia | done]. Qed.

(** C9.  Take a cursor as a parse has them: its line index is at most
    [last_line + 1], and on that extra line, whose text is empty, it is
    at column 0.  The cursor a parse starts from is one.  A successful
    match of [EndFile], [BlankLine], [EndLine], [BeginBlock] or
    [EndBlock] leaves the position where it is or moves it forward in
    the lexicographic order on (line, column), and the cursor it returns
    is such a cursor again. *)
Theorem token_match_never_moves_back
        (external_parse : string -> Parser -> Result Exn (option Parser))
        (symbol_type : SymbolType) (parser next : Parser) :
  is_token_rule symbol_type = true ->
  within_clamp parser ->
  Symbol_parse external_parse symbol_type parser = Return (Some next) ->
  position_le (line parser) (column parser) (line next) (column next) /\
  within_clamp next.
Proof.
  intros Htoken [Hline Hextra] Hnext.
  unfold position_le, within_clamp.
  destruct symbol_type; simpl in Hnext; try done.
  - apply EndFile_parse_inv in Hnext as ->.
    simpl. unfold last_line in *. simpl in *. lia.
  - apply BlankLine_parse_inv in Hnext as [Hcol ->].
    simpl. unfold last_line in *. simpl in *. lia.
  - apply EndLine_parse_inv in Hnext as ->.
    simpl. unfold last_line in *. simpl in *. lia.
  - apply BeginBlock_parse_inv in Hnext as (Hcol & _ & ->).
    simpl. unfold last_line in *. simpl in *. lia.
  - apply EndBlock_parse_inv in Hnext as (Hcol & _ & ->).
    simpl. unfold last_line in *. simpl in *. lia.
Qed.

(** The end of the first line of a two-line source. *)
Lemma token_match_never_moves_back_witness :
  let p := {| _lines := ["ab"; "cd"]; line := 0; column := 2;
              last_symbol := None; block_depth := 0 |} in
  within_clamp p /\
  exists next,
    Symbol_parse (fun _ _ => Return None) EndLine p = Return (Some next) /\
    position_le (line p) (column p) (line next) (column next) /\
    within_clamp next.
Proof.
  intros p.
  assert (within_clamp p) as Hp by (split; simpl; [lia | done]).
  split; [done|]. eexists. split; [done|].
  apply (token_match_never_moves_back (fun _ _ => Return None) EndLine p);
    done.
Defined.

(** C10.  On the extra line [last_line + 1] at column 0 the line text is
    empty, [EndLine] matches, and the cursor it returns has the same
    line, column and block depth; so it matches again, any number of
    times, without leaving the position. *)
Theorem EndLine_at_clamp_makes_no_progress (parser : Parser) :
  line parser = last_line parser + 1 ->
  column parser = 0 ->
  line_text parser None = "" /\
  (exists next,
     EndLine_parse parser = Return (Some next) /\
     line next = line parser /\ column next = column parser /\
     block_depth next = block_depth parser) /\
  (forall n, exists next,
     match_times EndLine_parse n parser = Return (Some next) /\
     line next = line parser /\ column next = column parser /\
     block_depth next = block_depth parser).
Proof.
  intros Hline Hcol.
  assert (forall p, line p = last_line p + 1 -> line_text p None = "")
    as Hempty.
  { intros p Hp. apply line_text_past_end.
    pose proof (last_line_succ_past_end p). lia. }
  assert (forall p, line p = last_line p + 1 -> column p = 0 ->
            exists next,
              EndLine_parse p = Return (Some next) /\
              last_line next = last_line p /\
              line next = line p /\ column next = column p /\
              block_depth next = block_depth p) as Hstep.
  { intros p Hp Hc. unfold EndLine_parse. rewrite (Hempty p Hp).
    destruct (Nat.leb_spec (String.length "") (column p)) as [_|Hlt];
      [|simpl in Hlt; lia].
    eexists. split; [done|]. simpl. split; [done|]. lia. }
  split_and!; [by apply Hempty | |].
  - destruct (Hstep parser Hline Hcol) as (next & ? & _ & ?). by exists next.
  - intros n. revert parser Hline Hcol.
    induction n as [|n IH]; intros parser Hline Hcol; [by exists parser|].
    destruct (Hstep parser Hline Hcol) as (p1 & Hp1 & Hlast & Hl1 & Hc1 & Hd1).
    destruct (IH p1) as (final & Hrun & ? & ? & ?); [lia | lia |].
    exists final. cbn [match_times]. rewrite Hp1, bind_Return.
    split_and!; [done | lia | lia | lia].
Qed.

(** After the only line of a source. *)
Lemma EndLine_at_clamp_makes_no_progress_witness :
  let p := {| _lines := ["ab"]; line := 1; column := 0;
              last_symbol := None; block_depth := 0 |} in
  line p = last_line p + 1 /\ column p = 0 /\
  exists next,
    match_times EndLine_parse 3 p = Return (Some next) /\
    line next = 1 /\ column next = 0 /\ block_depth next = 0.
Proof.
  intros p. split_and!; [done | done |].
  destruct (EndLine_at_clamp_makes_no_progress p eq_refl eq_refl)
    as (_ & _ & Hrepeat).
  exact (Hrepeat 3).
Defined.

(** ** The argument list rule *)

Section ArgumentListFacts.

Import argument_list.

Context {Cursor : Type} `{CursorOps Cursor}.

(** Takes a hypothesis about a pass of the loop apart, down to the
    tests the pass made. *)
Ltac crunch_pass Hpass :=
  unfold loop_body, after_entry, dispatch, deref, raise_ParseError,
    ParseError_new, mbind, Result_bind in Hpass;
  repeat case_match; simplify_eq/=.

(** A value is an instance of at most one of the classes. *)
Lemma isinstance_unique obj cls1 cls2 :
  isinstance obj cls1 = true -> isinstance obj cls2 = true -> cls1 = cls2.
Proof.
  destruct obj as [symbol|]; [|done]. unfold isinstance.
  intros ?%bool_decide_eq_true ?%bool_decide_eq_true. congruence.
Qed.

Lemma isinstance_other obj cls1 cls2 :
  isinstance obj cls1 = true -> cls1 <> cls2 -> isinstance obj cls2 = false.
Proof.
  intros H1 Hne. destruct (isinstance obj cls2) eqn:H2; [|done].
  destruct Hne. eauto using isinstance_unique.
Qed.

(** The in-place loop of the [/] branch rewrites each argument on its
    own. *)
Lemma rewrite_from_map (todo before : list Argument) :
  rewrite_from (length before) todo (before ++ todo)
  = before ++ map (fun a => if is_extra a then a
                            else mkArgument (variable a) true false false)
                  todo.
Proof.
  revert before. induction todo as [|a todo IH]; intros before; [done|].
  cbn [rewrite_from map]. destruct (is_extra a).
  - specialize (IH (before ++ [a])).
    rewrite length_app, <- !(assoc_L (++)) in IH. simpl in IH.
    by rewrite Nat.add_1_r in IH.
  - rewrite insert_app_r_alt, Nat.sub_diag by done. simpl.
    specialize (IH (before ++ [mkArgument (variable a) true false false])).
    rewrite length_app, <- !(assoc_L (++)) in IH. simpl in IH.
    by rewrite Nat.add_1_r in IH.
Qed.

Lemma rewrite_position_only_map (arguments : list Argument) :
  rewrite_position_only arguments
  = map (fun a => if is_extra a then a
                  else mkArgument (variable a) true false false) arguments.
Proof. apply (rewrite_from_map arguments []). Qed.

(** The loop body once its two leading calls have returned. *)
Lemma loop_body_dispatch (l : Locals Cursor) c1 new_cursor :
  parse_one_symbol (cursor l) markers = Return c1 ->
  Variable_parse c1 true true = Return new_cursor ->
  loop_body l
  = (entry ← dispatch l c1 new_cursor;
     match entry with
     | None =>
         Return (Break (mkLocals (arguments l)
                          (saw_end_position_only_marker l)
                          (saw_begin_keyword_only_marker l)
                          (saw_extra_positionals l) (saw_extra_keywords l)
                          c1))
     | Some l' => after_entry l'
     end).
Proof. intros H1 H2. unfold loop_body. by rewrite H1, bind_Return, H2. Qed.

(** No pass ever clears a flag. *)
Lemma loop_body_flags (l l' : Locals Cursor) :
  loop_body l = Return (Continue l') \/ loop_body l = Return (Break l') ->
  (saw_end_position_only_marker l = true ->
   saw_end_position_only_marker l' = true) /\
  (saw_begin_keyword_only_marker l = true ->
   saw_begin_keyword_only_marker l' = true) /\
  (saw_extra_positionals l = true -> saw_extra_positionals l' = true) /\
  (saw_extra_keywords l = true -> saw_extra_keywords l' = true).
Proof.
  intros [Hpass|Hpass]; crunch_pass Hpass; done.
Qed.

(** Once keyword-only mode is open, a pass can only append arguments
    that are keyword and not positional. *)
Lemma loop_body_keyword_only (l l' : Locals Cursor) :
  saw_begin_keyword_only_marker l = true ->
  loop_body l = Return (Continue l') \/ loop_body l = Return (Break l') ->
  exists suffix,
    arguments l' = arguments l ++ suffix /\
    Forall (fun a => is_positional a = false /\ is_keyword a = true) suffix.
Proof.
  intros Hopen [Hpass|Hpass]; crunch_pass Hpass; rewrite ?Hopen;
    solve [ exists []; by rewrite app_nil_r
          | eexists [_]; split; [done|]; by apply Forall_singleton ].
Qed.

(** A pass that did not match [/] leaves the arguments it found in
    place. *)
Lemma loop_body_prefix (l l' : Locals Cursor) c1 :
  parse_one_symbol (cursor l) markers = Return c1 ->
  isinstance (last_symbol c1) (Characters "/") = false ->
  loop_body l = Return (Continue l') \/ loop_body l = Return (Break l') ->
  arguments l `prefix_of` arguments l'.
Proof.
  intros Hc1 Hslash [Hpass|Hpass]; crunch_pass Hpass;
    solve [ congruence | exists []; by rewrite app_nil_r | by eexists [_] ].
Qed.

(** A pass that comes to its end began with a marker call that
    returned. *)
Lemma loop_body_marker (l : Locals Cursor) flow :
  loop_body l = Return flow ->
  exists c1, parse_one_symbol (cursor l) markers = Return c1.
Proof.
  unfold loop_body. destruct (parse_one_symbol (cursor l) markers) as [c1|e];
    [by exists c1 | done].
Qed.

(** A pass that goes on to the next sets the flag of the marker it
    matched, and no other. *)
Lemma loop_body_sets_flags (l l' : Locals Cursor) c1 :
  parse_one_symbol (cursor l) markers = Return c1 ->
  loop_body l = Return (Continue l') ->
  (saw_end_position_only_marker l' = true <->
   saw_end_position_only_marker l = true \/
   isinstance (last_symbol c1) (Characters "/") = true) /\
  (saw_begin_keyword_only_marker l' = true <->
   saw_begin_keyword_only_marker l = true \/
   isinstance (last_symbol c1) (Characters "*") = true) /\
  (saw_extra_keywords l' = true <->
   saw_extra_keywords l = true \/
   isinstance (last_symbol c1) (Characters "**") = true).
Proof.
  intros Hc1 Hpass. unfold loop_body in Hpass.
  rewrite Hc1, bind_Return in Hpass.
  crunch_pass Hpass; split_and!; (split; [auto|]); intros [?|Hother];
    try done;
    match goal with
    | Hthis : isinstance ?o _ = true |- _ =>
        by pose proof (isinstance_unique _ _ _ Hthis Hother)
    | Hno : isinstance ?o ?cls = false |- _ => congruence
    end.
Qed.

(** Completed passes compose. *)
Lemma passes_trans (l l' l'' : Locals Cursor) :
  passes l l' -> passes l' l'' -> passes l l''.
Proof.
  induction 1 as [|l l1 l2 Hstep _ IH]; [done|].
  intros Hrest. eapply passes_step; [done|]. by apply IH.
Qed.

(** The loop run from [l] goes through [l'], whatever is left to
    run. *)
Lemma passes_parse_loop (l l' : Locals Cursor) :
  passes l l' ->
  exists n, forall fuel, parse_loop (n + fuel) l = parse_loop fuel l'.
Proof.
  induction 1 as [l|l l1 l2 Hstep _ [n IH]].
  - by exists 0.
  - exists (S n). intros fuel. cbn [Nat.add parse_loop]. by rewrite Hstep.
Qed.

(** What a pass raises, the call of [ArgumentList.parse] that came to
    that pass raises. *)
Lemma pass_raises (cursor0 : Cursor) (l : Locals Cursor) e :
  passes (start cursor0) l -> loop_body l = Raise e ->
  parse_raises cursor0 e.
Proof.
  intros [n Hn]%passes_parse_loop Hbody. exists n. intros fuel Hfuel.
  change (ArgumentList_parse fuel cursor0)
    with (parse_loop fuel (start cursor0)).
  replace fuel with (n + S (fuel - S n)) by lia.
  rewrite Hn. cbn [parse_loop]. by rewrite Hbody.
Qed.

(** A flag that a pass sets exactly when it matched [chars] is set at
    [l] exactly when it was set at [l0] or a pass on the way matched
    [chars]. *)
Lemma flag_history (flag : Locals Cursor -> bool) (chars : string) :
  (forall l l' c1,
     parse_one_symbol (cursor l) markers = Return c1 ->
     loop_body l = Return (Continue l') ->
     (flag l' = true <->
      flag l = true \/
      isinstance (last_symbol c1) (Characters chars) = true)) ->
  forall l0 l, passes l0 l ->
    (flag l = true <-> flag l0 = true \/ matched_earlier chars l0 l).
Proof.
  intros Hflag.
  assert (forall l l', passes l l' -> flag l = true -> flag l' = true)
    as Hkept.
  { induction 1 as [|l l1 l2 Hstep _ IH]; [done|]. intros Hl. apply IH.
    destruct (loop_body_marker _ _ Hstep) as [c1 Hc1].
    apply (Hflag l l1 c1 Hc1 Hstep). by left. }
  intros l0 l Hpasses. split.
  - induction Hpasses as [|l0 l1 l Hstep Hrest IH]; [by left|].
    intros Hl. destruct (loop_body_marker _ _ Hstep) as [c1 Hc1].
    destruct (IH Hl) as [Hl1|(la & ca & lb & Ha & Hca & Hchars & Hab & Hb)].
    + apply (Hflag l0 l1 c1 Hc1 Hstep) in Hl1 as [Hl0|Hchars]; [by left|].
      right. exists l0, c1, l1. split_and!; [constructor | done..].
    + right. exists la, ca, lb.
      split_and!; [by eapply passes_step | done..].
  - intros [Hl0|(la & ca & lb & Ha & Hca & Hchars & Hab & Hb)].
    + by apply (Hkept l0 l).
    + apply (Hkept lb l Hb). apply (Hflag la lb ca Hca Hab). by right.
Qed.

(** As the loop runs, an extra-positional entry is on record only with
    keyword-only mode open. *)
Lemma passes_extra_positional_opens (cursor0 : Cursor) (l : Locals Cursor) :
  passes (start cursor0) l ->
  saw_extra_positionals l = true -> saw_begin_keyword_only_marker l = true.
Proof.
  assert (forall l l' : Locals Cursor, passes l l' ->
            (saw_extra_positionals l = true ->
             saw_begin_keyword_only_marker l = true) ->
            saw_extra_positionals l' = true ->
            saw_begin_keyword_only_marker l' = true) as Hinv.
  { induction 1 as [|l1 l2 l3 Hstep _ IH]; [done|].
    intros Hl1. apply IH. clear IH. crunch_pass Hstep; auto. }
  intros Hpasses. by apply (Hinv _ _ Hpasses).
Qed.

(** What the variable rule raises, the pass raises. *)
Lemma loop_body_Variable_raises (l : Locals Cursor) c1 e :
  parse_one_symbol (cursor l) markers = Return c1 ->
  Variable_parse c1 true true = Raise e ->
  loop_body l = Raise e.
Proof. intros H1 H2. unfold loop_body. by rewrite H1, bind_Return, H2. Qed.

(** C2.  Take a pass that [ArgumentList.parse] comes to and that has
    matched [/].  The two flags it tests say what went before: whether
    an earlier pass matched [/], and whether one matched [*].  What the
    variable rule raises, [ArgumentList.parse] raises.  Once the
    variable rule has returned: when either flag is set, the call of
    [ParseError] with a message and the cursor raises [TypeError], the
    class taking no argument, and that [TypeError] is what
    [ArgumentList.parse] raises: no [ParseError], and no message.
    Otherwise the pass goes on with every argument appended so far
    rewritten to positional and not keyword, except those flagged extra,
    which stay as they are.  A pass that has matched anything else
    leaves the arguments it found in place, as a prefix of the list it
    ends with.  On the lexemes of [a, /, b] the rule yields [a]
    positional only and [b] positional and keyword; on those of
    [a, /, /] and of [*, /] it raises the [TypeError]. *)
Theorem slash_marker_rewrites_earlier_arguments
        (cursor0 : Cursor) (l : Locals Cursor) (c1 : Cursor) :
  passes (start cursor0) l ->
  parse_one_symbol (cursor l) markers = Return c1 ->
  (saw_end_position_only_marker l = true
   <-> matched_earlier "/" (start cursor0) l) /\
  (saw_begin_keyword_only_marker l = true
   <-> matched_earlier "*" (start cursor0) l) /\
  (isinstance (last_symbol c1) (Characters "/") = true ->
   (forall e, Variable_parse c1 true true = Raise e ->
      parse_raises cursor0 e) /\
   (forall new_cursor, Variable_parse c1 true true = Return new_cursor ->
      (saw_end_position_only_marker l = true \/
       saw_begin_keyword_only_marker l = true ->
       loop_body l = Raise (TypeError 1 3) /\
       parse_raises cursor0 (TypeError 1 3)) /\
      (saw_end_position_only_marker l = false ->
       saw_begin_keyword_only_marker l = false ->
       loop_body l
       = after_entry
           (mkLocals
              (map (fun a => if is_extra a then a
                             else mkArgument (variable a) true false false)
                   (arguments l))
              true false (saw_extra_positionals l) (saw_extra_keywords l)
              c1)))) /\
  (isinstance (last_symbol c1) (Characters "/") = false ->
   forall l',
     loop_body l = Return (Continue l') \/ loop_body l = Return (Break l') ->
     arguments l `prefix_of` arguments l') /\
  (forall fuel, 3 <= fuel ->
   ArgumentList_parse fuel
     (lex_start [Name "a"; Mark ","; Mark "/"; Mark ","; Name "b"])
   = Some (Return
             {| remaining := [];
                lex_last_symbol :=
                  Some (mkArgumentList
                          [mkArgument (var "a") true false false;
                           mkArgument (var "b") true true false]) |})) /\
  (forall fuel, 3 <= fuel ->
   ArgumentList_parse fuel
     (lex_start [Name "a"; Mark ","; Mark "/"; Mark ","; Mark "/"])
   = Some (Raise (TypeError 1 3))) /\
  (forall fuel, 2 <= fuel ->
   ArgumentList_parse fuel (lex_start [Mark "*"; Mark ","; Mark "/"])
   = Some (Raise (TypeError 1 3))).
Proof.
  intros Hpasses Hc1. split_and!.
  - rewrite (flag_history saw_end_position_only_marker "/"
               ltac:(intros; by eapply loop_body_sets_flags) _ _ Hpasses).
    simpl. split; [by intros [?|?] | by right].
  - rewrite (flag_history saw_begin_keyword_only_marker "*"
               ltac:(intros; by eapply loop_body_sets_flags) _ _ Hpasses).
    simpl. split; [by intros [?|?] | by right].
  - intros Hslash.
    assert (isinstance (last_symbol c1) (Characters "*") = false) as Hstar
      by by apply (isinstance_other _ _ _ Hslash).
    assert (isinstance (last_symbol c1) (Characters "**") = false) as Hstar2
      by by apply (isinstance_other _ _ _ Hslash).
    split.
    { intros e He. apply (pass_raises cursor0 l); [done|].
      by apply (loop_body_Variable_raises l c1). }
    intros new_cursor Hnew.
    pose proof (loop_body_dispatch l c1 new_cursor Hc1 Hnew) as Hbody.
    unfold dispatch in Hbody. rewrite Hstar, Hstar2, Hslash in Hbody.
    split.
    + intros Hseen.
      assert (loop_body l = Raise (TypeError 1 3)) as Hraise.
      { rewrite Hbody.
        destruct (saw_end_position_only_marker l); [done|].
        by destruct Hseen as [?| ->]. }
      split; [done|]. by apply (pass_raises cursor0 l).
    + intros Hend Hbegin. rewrite Hbody, Hend, Hbegin, bind_Return.
      by rewrite rewrite_position_only_map.
  - intros Hslash l' Hpass. by apply (loop_body_prefix l l' c1).
  - intros fuel Hfuel. destruct fuel as [|[|[|fuel]]]; [lia..|]. done.
  - intros fuel Hfuel. destruct fuel as [|[|[|fuel]]]; [lia..|]. done.
  - intros fuel Hfuel. destruct fuel as [|[|fuel]]; [lia..|]. done.
Qed.

(** C7.  Take a pass that [ArgumentList.parse] comes to, its marker call
    having returned.  Keyword-only mode is open there exactly when an
    earlier pass matched [*].  When this pass has matched [*]: what the
    variable rule raises, [ArgumentList.parse] raises; should the
    variable rule have returned [None], reading
    [new_cursor.last_symbol] raises [AttributeError], and
    [ArgumentList.parse] raises it; with the mode open already the call
    of [ParseError] raises [TypeError], and [ArgumentList.parse] raises
    that; otherwise the pass opens the mode, whether a variable
    followed the marker (then appended as positional and extra) or not.
    A pass that matched no marker and parsed a variable appends it as
    keyword and not extra, and as positional exactly when the mode is
    not open.  Once the mode is open it stays open, and every argument
    appended from then on is keyword and not positional.  On the lexemes
    of [a, *, b] the rule yields [a] positional and keyword and [b]
    keyword only; on those of [a, *, *] it raises the [TypeError]; and
    with a variable rule that returns [None] where no variable follows,
    on those of [a, *, b] it raises the [AttributeError]. *)
Theorem star_marker_opens_keyword_only
        (cursor0 : Cursor) (l : Locals Cursor) (c1 : Cursor) :
  passes (start cursor0) l ->
  parse_one_symbol (cursor l) markers = Return c1 ->
  (saw_begin_keyword_only_marker l = true
   <-> matched_earlier "*" (start cursor0) l) /\
  (isinstance (last_symbol c1) (Characters "*") = true ->
   (forall e, Variable_parse c1 true true = Raise e ->
      parse_raises cursor0 e) /\
   (Variable_parse c1 true true = Return None ->
    parse_raises cursor0
      (AttributeError "'NoneType' object has no attribute 'last_symbol'")) /\
   (forall nc, Variable_parse c1 true true = Return (Some nc) ->
      (saw_begin_keyword_only_marker l = true ->
       loop_body l = Raise (TypeError 1 3) /\
       parse_raises cursor0 (TypeError 1 3)) /\
      (saw_begin_keyword_only_marker l = false ->
       forall v, as_Variable (last_symbol nc) = Some v ->
         loop_body l
         = after_entry
             (mkLocals (arguments l ++ [mkArgument v true false true])
                (saw_end_position_only_marker l) true true
                (saw_extra_keywords l) nc)) /\
      (saw_begin_keyword_only_marker l = false ->
       as_Variable (last_symbol nc) = None ->
       loop_body l
       = after_entry
           (mkLocals (arguments l) (saw_end_position_only_marker l) true
              (saw_extra_positionals l) (saw_extra_keywords l) c1))) /\
   (forall l',
      loop_body l = Return (Continue l') \/ loop_body l = Return (Break l') ->
      saw_begin_keyword_only_marker l' = true)) /\
  (isinstance (last_symbol c1) (Characters "*") = false ->
   isinstance (last_symbol c1) (Characters "**") = false ->
   isinstance (last_symbol c1) (Characters "/") = false ->
   forall nc v,
     Variable_parse c1 true true = Return (Some nc) ->
     as_Variable (last_symbol nc) = Some v ->
     loop_body l
     = after_entry
         (mkLocals
            (arguments l ++
               [mkArgument v (negb (saw_begin_keyword_only_marker l))
                  true false])
            (saw_end_position_only_marker l)
            (saw_begin_keyword_only_marker l)
            (saw_extra_positionals l) (saw_extra_keywords l) nc)) /\
  (saw_begin_keyword_only_marker l = true ->
   forall l', passes l l' ->
     saw_begin_keyword_only_marker l' = true /\
     forall l'',
       l'' = l' \/ loop_body l' = Return (Break l'') ->
       exists suffix,
         arguments l'' = arguments l ++ suffix /\
         Forall (fun a => is_positional a = false /\ is_keyword a = true)
                suffix) /\
  (forall fuel, 3 <= fuel ->
   ArgumentList_parse fuel
     (lex_start [Name "a"; Mark ","; Mark "*"; Mark ","; Name "b"])
   = Some (Return
             {| remaining := [];
                lex_last_symbol :=
                  Some (mkArgumentList
                          [mkArgument (var "a") true true false;
                           mkArgument (var "b") false true false]) |})) /\
  (forall fuel, 3 <= fuel ->
   ArgumentList_parse fuel
     (lex_start [Name "a"; Mark ","; Mark "*"; Mark ","; Mark "*"])
   = Some (Raise (TypeError 1 3))) /\
  (forall fuel, 2 <= fuel ->
   @ArgumentList_parse LexCursor LexCursor_or_None_ops fuel
     (lex_start [Name "a"; Mark ","; Mark "*"; Mark ","; Name "b"])
   = Some (Raise (AttributeError
                    "'NoneType' object has no attribute 'last_symbol'"))).
Proof.
  intros Hpasses Hc1.
  split_and!.
  - rewrite (flag_history saw_begin_keyword_only_marker "*"
               ltac:(intros; by eapply loop_body_sets_flags) _ _ Hpasses).
    simpl. split; [by intros [?|?] | by right].
  - intros Hstar.
    split_and!.
    + intros e He. apply (pass_raises cursor0 l); [done|].
      by apply (loop_body_Variable_raises l c1).
    + intros Hnew. apply (pass_raises cursor0 l); [done|].
      rewrite (loop_body_dispatch l c1 None Hc1 Hnew).
      unfold dispatch. by rewrite Hstar.
    + intros nc Hnew.
      pose proof (loop_body_dispatch l c1 (Some nc) Hc1 Hnew) as Hbody.
      unfold dispatch, deref in Hbody.
      rewrite Hstar, bind_Return in Hbody.
      split_and!.
      * intros Hbegin.
        assert (loop_body l = Raise (TypeError 1 3)) as Hraise.
        { rewrite Hbody. destruct (as_Variable (last_symbol nc)) as [v|].
          - destruct (saw_extra_positionals l); [done|].
            by rewrite bind_Return, Hbegin.
          - by rewrite bind_Return, Hbegin. }
        split; [done|]. by apply (pass_raises cursor0 l).
      * intros Hbegin v Hv.
        assert (saw_extra_positionals l = false) as Hxp.
        { destruct (saw_extra_positionals l) eqn:Hxp; [|done].
          pose proof (passes_extra_positional_opens _ _ Hpasses Hxp).
          congruence. }
        by rewrite Hbody, Hv, Hxp, bind_Return, Hbegin, bind_Return.
      * intros Hbegin Hv.
        by rewrite Hbody, Hv, bind_Return, Hbegin, bind_Return.
    + intros l' [Hpass|Hpass]; crunch_pass Hpass; congruence.
  - intros Hstar Hstar2 Hslash nc v Hnew Hv.
    rewrite (loop_body_dispatch l c1 (Some nc) Hc1 Hnew). unfold dispatch.
    by rewrite Hstar, Hstar2, Hslash, Hv, bind_Return.
  - intros Hopen l' Hpasses'.
    assert (saw_begin_keyword_only_marker l' = true /\
            exists suffix,
              arguments l' = arguments l ++ suffix /\
              Forall (fun a => is_positional a = false /\ is_keyword a = true)
                     suffix) as [Hopen' (suffix & Hargs & Hsuffix)].
    { clear Hpasses Hc1.
      induction Hpasses' as [l|l l1 l2 Hstep _ IH].
      - split; [done|]. exists []. by rewrite app_nil_r.
      - destruct (loop_body_flags l l1) as (_ & Hkeep & _); [by left|].
        destruct (loop_body_keyword_only l l1 Hopen) as (s1 & Hs1 & Hall1);
          [by left|].
        destruct (IH (Hkeep Hopen)) as (Hopen2 & s2 & Hs2 & Hall2).
        split; [done|]. exists (s1 ++ s2).
        split; [by rewrite Hs2, Hs1, (assoc_L (++)) | by apply Forall_app]. }
    split; [done|]. intros l'' [->|Hlast]; [by exists suffix|].
    destruct (loop_body_keyword_only l' l'' Hopen') as (s3 & Hs3 & Hall3);
      [by right|].
    exists (suffix ++ s3).
    split; [by rewrite Hs3, Hargs, (assoc_L (++)) | by apply Forall_app].
  - intros fuel Hfuel. destruct fuel as [|[|[|fuel]]]; [lia..|]. done.
  - intros fuel Hfuel. destruct fuel as [|[|[|fuel]]]; [lia..|]. done.
  - intros fuel Hfuel. destruct fuel as [|[|fuel]]; [lia..|]. done.
Qed.

(** C8.  Take a pass that [ArgumentList.parse] comes to and that has
    matched the two-character marker.  An extra-keyword entry is on
    record there exactly when an earlier pass matched the marker.  What
    the variable rule raises, [ArgumentList.parse] raises.  Should the
    variable rule have returned [None], reading
    [new_cursor.last_symbol] raises [AttributeError].  When the cursor it returned does not end in a
    variable, the call of [ParseError] with the message "expected
    Variable" raises [TypeError], the class taking no argument.  When it
    does end in one, the variable is appended as keyword and extra, not
    positional, unless such an entry is on record, in which case the
    call of [ParseError] with the message about multiple "extra keyword"
    arguments and the cursor raises [TypeError].  What the pass raises,
    [ArgumentList.parse] raises: in no case a [ParseError], and in no
    case anything that holds the message.  On the lexemes of a marked
    name the rule yields that one entry; on those of a lone marker it
    raises the first [TypeError], on those of two marked names the
    second, and with a variable rule that returns [None] where no
    variable follows, on a lone marker the [AttributeError]. *)
Theorem double_star_marker_needs_variable
        (cursor0 : Cursor) (l : Locals Cursor) (c1 : Cursor) :
  passes (start cursor0) l ->
  parse_one_symbol (cursor l) markers = Return c1 ->
  isinstance (last_symbol c1) (Characters "**") = true ->
  (saw_extra_keywords l = true
   <-> matched_earlier "**" (start cursor0) l) /\
  (forall e, Variable_parse c1 true true = Raise e ->
     parse_raises cursor0 e) /\
  (Variable_parse c1 true true = Return None ->
   parse_raises cursor0
     (AttributeError "'NoneType' object has no attribute 'last_symbol'")) /\
  (forall nc, Variable_parse c1 true true = Return (Some nc) ->
     (as_Variable (last_symbol nc) = None ->
      loop_body l = Raise (TypeError 1 2) /\
      parse_raises cursor0 (TypeError 1 2)) /\
     (forall v, as_Variable (last_symbol nc) = Some v ->
        (saw_extra_keywords l = false ->
         loop_body l
         = after_entry
             (mkLocals (arguments l ++ [mkArgument v false true true])
                (saw_end_position_only_marker l)
                (saw_begin_keyword_only_marker l)
                (saw_extra_positionals l) true nc)) /\
        (saw_extra_keywords l = true ->
         loop_body l = Raise (TypeError 1 3) /\
         parse_raises cursor0 (TypeError 1 3)))) /\
  (forall fuel, 1 <= fuel ->
   ArgumentList_parse fuel (lex_start [Mark "**"; Name "k"])
   = Some (Return
             {| remaining := [];
                lex_last_symbol :=
                  Some (mkArgumentList
                          [mkArgument (var "k") false true true]) |})) /\
  (forall fuel, 1 <= fuel ->
   ArgumentList_parse fuel (lex_start [Mark "**"])
   = Some (Raise (TypeError 1 2))) /\
  (forall fuel, 2 <= fuel ->
   ArgumentList_parse fuel
     (lex_start [Mark "**"; Name "k"; Mark ","; Mark "**"; Name "j"])
   = Some (Raise (TypeError 1 3))) /\
  (forall fuel, 1 <= fuel ->
   @ArgumentList_parse LexCursor LexCursor_or_None_ops fuel
     (lex_start [Mark "**"])
   = Some (Raise (AttributeError
                    "'NoneType' object has no attribute 'last_symbol'"))).
Proof.
  intros Hpasses Hc1 Hstar2.
  assert (isinstance (last_symbol c1) (Characters "*") = false) as Hstar
    by by apply (isinstance_other _ _ _ Hstar2).
  split_and!.
  - rewrite (flag_history saw_extra_keywords "**"
               ltac:(intros; by eapply loop_body_sets_flags) _ _ Hpasses).
    simpl. split; [by intros [?|?] | by right].
  - intros e He. apply (pass_raises cursor0 l); [done|].
    by apply (loop_body_Variable_raises l c1).
  - intros Hnew. apply (pass_raises cursor0 l); [done|].
    rewrite (loop_body_dispatch l c1 None Hc1 Hnew).
    unfold dispatch. by rewrite Hstar, Hstar2.
  - intros nc Hnew.
    pose proof (loop_body_dispatch l c1 (Some nc) Hc1 Hnew) as Hbody.
    unfold dispatch, deref in Hbody.
    rewrite Hstar, Hstar2, bind_Return in Hbody.
    split.
    + intros Hv. rewrite Hv in Hbody.
      split; [done|]. by apply (pass_raises cursor0 l).
    + intros v Hv. rewrite Hv in Hbody. split; intros Hxk.
      * by rewrite Hbody, Hxk.
      * rewrite Hxk in Hbody.
        split; [done|]. by apply (pass_raises cursor0 l).
  - intros fuel Hfuel. destruct fuel as [|fuel]; [lia|]. done.
  - intros fuel Hfuel. destruct fuel as [|fuel]; [lia|]. done.
  - intros fuel Hfuel. destruct fuel as [|[|fuel]]; [lia..|]. done.
  - intros fuel Hfuel. destruct fuel as [|fuel]; [lia|]. done.
Qed.

End ArgumentListFacts.

Section ArgumentListExamples.

Import argument_list.

(** Two completed passes, given as what [loop_body] returns. *)
Lemma passes_two {Cursor : Type} `{CursorOps Cursor}
      (l0 l1 l2 : Locals Cursor) :
  loop_body l0 = Return (Continue l1) ->
  loop_body l1 = Return (Continue l2) ->
  passes l0 l2.
Proof.
  intros H01 H12. eapply passes_step; [exact H01|].
  eapply passes_step; [exact H12|]. apply passes_refl.
Qed.

(** The pass at [/] in [a, /, b], and the pass at the second [/] in
    [a, /, /]. *)
Lemma slash_marker_rewrites_earlier_arguments_witness :
  let at_slash := {| remaining := [Mark "/"; Mark ","; Name "b"];
                     lex_last_symbol := Some (mkCharacters ",") |} in
  let after_slash := {| remaining := [Mark ","; Name "b"];
                        lex_last_symbol := Some (mkCharacters "/") |} in
  let l := mkLocals [mkArgument (var "a") true true false]
             false false false false at_slash in
  let twice := lex_start [Name "a"; Mark ","; Mark "/"; Mark ","; Mark "/"] in
  let at_second := {| remaining := [Mark "/"];
                      lex_last_symbol := Some (mkCharacters ",") |} in
  let after_second := {| remaining := [];
                         lex_last_symbol := Some (mkCharacters "/") |} in
  let l2 := mkLocals [mkArgument (var "a") true false false]
              true false false false at_second in
  (passes (start (lex_start [Name "a"; Mark ","; Mark "/"; Mark ",";
                             Name "b"])) l /\
   parse_one_symbol (cursor l) markers = Return after_slash /\
   Variable_parse after_slash true true = Return (Some after_slash) /\
   loop_body l
   = Return (Continue
               (mkLocals [mkArgument (var "a") true false false]
                  true false false false
                  {| remaining := [Name "b"];
                     lex_last_symbol := Some (mkCharacters ",") |}))) /\
  (passes (start twice) l2 /\
   parse_one_symbol (cursor l2) markers = Return after_second /\
   Variable_parse after_second true true = Return (Some after_second) /\
   loop_body l2 = Raise (TypeError 1 3) /\
   parse_raises twice (TypeError 1 3)).
Proof.
  intros at_slash after_slash l twice at_second after_second l2. split.
  - assert (passes (start (lex_start [Name "a"; Mark ","; Mark "/"; Mark ",";
                                      Name "b"])) l) as Hpasses.
    { eapply passes_step; [vm_compute; reflexivity | apply passes_refl]. }
    assert (parse_one_symbol (cursor l) markers = Return after_slash)
      as Hmarker by reflexivity.
    assert (Variable_parse after_slash true true = Return (Some after_slash))
      as Hvariable by reflexivity.
    split_and!; [exact Hpasses | exact Hmarker | exact Hvariable |].
    destruct (slash_marker_rewrites_earlier_arguments
                _ l after_slash Hpasses Hmarker)
      as (_ & _ & Hslash & _).
    destruct (Hslash ltac:(reflexivity)) as (_ & Hreturned).
    destruct (Hreturned (Some after_slash) Hvariable) as (_ & Hrewrite).
    rewrite (Hrewrite ltac:(reflexivity) ltac:(reflexivity)). reflexivity.
  - assert (passes (start twice) l2) as Hpasses.
    { eapply passes_two; vm_compute; reflexivity. }
    assert (parse_one_symbol (cursor l2) markers = Return after_second)
      as Hmarker by reflexivity.
    assert (Variable_parse after_second true true
            = Return (Some after_second)) as Hvariable by reflexivity.
    split_and!; [exact Hpasses | exact Hmarker | exact Hvariable | |].
    + destruct (slash_marker_rewrites_earlier_arguments
                  twice l2 after_second Hpasses Hmarker)
        as (_ & _ & Hslash & _).
      destruct (Hslash ltac:(reflexivity)) as (_ & Hreturned).
      destruct (Hreturned (Some after_second) Hvariable) as (Hraise & _).
      apply Hraise. left. reflexivity.
    + destruct (slash_marker_rewrites_earlier_arguments
                  twice l2 after_second Hpasses Hmarker)
        as (_ & _ & Hslash & _).
      destruct (Hslash ltac:(reflexivity)) as (_ & Hreturned).
      destruct (Hreturned (Some after_second) Hvariable) as (Hraise & _).
      apply Hraise. left. reflexivity.
Defined.

(** The pass at [*] in [a, *, b]; the pass at the second [*] in
    [a, *, *]; and the pass at [*] in [a, *, b] with the variable rule
    that returns [None]. *)
Lemma star_marker_opens_keyword_only_witness :
  let start_b := lex_start [Name "a"; Mark ","; Mark "*"; Mark ",";
                            Name "b"] in
  let at_star := {| remaining := [Mark "*"; Mark ","; Name "b"];
                    lex_last_symbol := Some (mkCharacters ",") |} in
  let after_star := {| remaining := [Mark ","; Name "b"];
                       lex_last_symbol := Some (mkCharacters "*") |} in
  let l := mkLocals [mkArgument (var "a") true true false]
             false false false false at_star in
  let twice := lex_start [Name "a"; Mark ","; Mark "*"; Mark ","; Mark "*"] in
  let at_second := {| remaining := [Mark "*"];
                      lex_last_symbol := Some (mkCharacters ",") |} in
  let after_second := {| remaining := [];
                         lex_last_symbol := Some (mkCharacters "*") |} in
  let l2 := mkLocals [mkArgument (var "a") true true false]
              false true false false at_second in
  (passes (start start_b) l /\
   parse_one_symbol (cursor l) markers = Return after_star /\
   Variable_parse after_star true true = Return (Some after_star) /\
   loop_body l
   = Return (Continue
               (mkLocals [mkArgument (var "a") true true false]
                  false true false false
                  {| remaining := [Name "b"];
                     lex_last_symbol := Some (mkCharacters ",") |}))) /\
  (passes (start twice) l2 /\
   parse_one_symbol (cursor l2) markers = Return after_second /\
   Variable_parse after_second true true = Return (Some after_second) /\
   parse_raises twice (TypeError 1 3)) /\
  (@passes LexCursor LexCursor_or_None_ops (start start_b) l /\
   @parse_one_symbol LexCursor LexCursor_or_None_ops (cursor l) markers
   = Return after_star /\
   @Variable_parse LexCursor LexCursor_or_None_ops after_star true true
   = Return None /\
   @parse_raises LexCursor LexCursor_or_None_ops start_b
     (AttributeError "'NoneType' object has no attribute 'last_symbol'")).
Proof.
  intros start_b at_star after_star l twice at_second after_second l2.
  split; [|split].
  - assert (passes (start start_b) l) as Hpasses.
    { eapply passes_step; [vm_compute; reflexivity | apply passes_refl]. }
    assert (parse_one_symbol (cursor l) markers = Return after_star)
      as Hmarker by reflexivity.
    assert (Variable_parse after_star true true = Return (Some after_star))
      as Hvariable by reflexivity.
    split_and!; [exact Hpasses | exact Hmarker | exact Hvariable |].
    destruct (star_marker_opens_keyword_only
                start_b l after_star Hpasses Hmarker) as (_ & Hstar & _).
    destruct (Hstar ltac:(reflexivity)) as (_ & _ & Hsome & _).
    destruct (Hsome after_star Hvariable) as (_ & _ & Hbare).
    rewrite (Hbare ltac:(reflexivity) ltac:(reflexivity)). reflexivity.
  - assert (passes (start twice) l2) as Hpasses.
    { eapply passes_two; vm_compute; reflexivity. }
    assert (parse_one_symbol (cursor l2) markers = Return after_second)
      as Hmarker by reflexivity.
    assert (Variable_parse after_second true true
            = Return (Some after_second)) as Hvariable by reflexivity.
    split_and!; [exact Hpasses | exact Hmarker | exact Hvariable |].
    destruct (star_marker_opens_keyword_only
                twice l2 after_second Hpasses Hmarker) as (_ & Hstar & _).
    destruct (Hstar ltac:(reflexivity)) as (_ & _ & Hsome & _).
    destruct (Hsome after_second Hvariable) as (Hraise & _).
    apply Hraise. reflexivity.
  - assert (@passes LexCursor LexCursor_or_None_ops (start start_b) l)
      as Hpasses.
    { eapply passes_step; [vm_compute; reflexivity | apply passes_refl]. }
    assert (@parse_one_symbol LexCursor LexCursor_or_None_ops
              (cursor l) markers = Return after_star)
      as Hmarker by reflexivity.
    assert (@Variable_parse LexCursor LexCursor_or_None_ops
              after_star true true = Return None)
      as Hvariable by reflexivity.
    split_and!; [exact Hpasses | exact Hmarker | exact Hvariable |].
    destruct (@star_marker_opens_keyword_only LexCursor LexCursor_or_None_ops
                start_b l after_star Hpasses Hmarker) as (_ & Hstar & _).
    destruct (Hstar ltac:(reflexivity)) as (_ & Hnone & _).
    exact (Hnone Hvariable).
Defined.

(** A lone marker; the second entry of two marked names; and a lone
    marker with the variable rule that returns [None]. *)
Lemma double_star_marker_needs_variable_witness :
  let lone := lex_start [Mark "**"] in
  let after_marker := {| remaining := [];
                         lex_last_symbol := Some (mkCharacters "**") |} in
  let two := lex_start [Mark "**"; Name "k"; Mark ","; Mark "**"; Name "j"] in
  let at_second := {| remaining := [Mark "**"; Name "j"];
                      lex_last_symbol := Some (mkCharacters ",") |} in
  let after_second := {| remaining := [Name "j"];
                         lex_last_symbol := Some (mkCharacters "**") |} in
  let l2 := mkLocals [mkArgument (var "k") false true true]
              false false false true at_second in
  (parse_one_symbol (cursor (start lone)) markers = Return after_marker /\
   Variable_parse after_marker true true = Return (Some after_marker) /\
   parse_raises lone (TypeError 1 2)) /\
  (passes (start two) l2 /\
   parse_one_symbol (cursor l2) markers = Return after_second /\
   parse_raises two (TypeError 1 3)) /\
  (@Variable_parse LexCursor LexCursor_or_None_ops after_marker true true
   = Return None /\
   @parse_raises LexCursor LexCursor_or_None_ops lone
     (AttributeError "'NoneType' object has no attribute 'last_symbol'")).
Proof.
  intros lone after_marker two at_second after_second l2.
  split; [|split].
  - assert (parse_one_symbol (cursor (start lone)) markers
            = Return after_marker) as Hmarker by reflexivity.
    assert (Variable_parse after_marker true true
            = Return (Some after_marker)) as Hvariable by reflexivity.
    split_and!; [exact Hmarker | exact Hvariable |].
    destruct (double_star_marker_needs_variable
                lone (start lone) after_marker
                (passes_refl _) Hmarker ltac:(reflexivity))
      as (_ & _ & _ & Hsome & _).
    destruct (Hsome after_marker Hvariable) as (Hmissing & _).
    apply Hmissing. reflexivity.
  - assert (passes (start two) l2) as Hpasses.
    { eapply passes_step; [vm_compute; reflexivity | apply passes_refl]. }
    assert (parse_one_symbol (cursor l2) markers = Return after_second)
      as Hmarker by reflexivity.
    split_and!; [exact Hpasses | exact Hmarker |].
    destruct (double_star_marker_needs_variable
                two l2 after_second
                Hpasses Hmarker ltac:(reflexivity))
      as (_ & _ & _ & Hsome & _).
    destruct (Hsome {| remaining := [];
                       lex_last_symbol := Some (mkVariable (var "j")) |}
                ltac:(reflexivity)) as (_ & Hvar).
    destruct (Hvar (var "j") ltac:(reflexivity)) as (_ & Hsecond).
    apply Hsecond. reflexivity.
  - assert (@parse_one_symbol LexCursor LexCursor_or_None_ops
              (cursor (start lone)) markers = Return after_marker)
      as Hmarker by reflexivity.
    assert (@Variable_parse LexCursor LexCursor_or_None_ops
              after_marker true true = Return None)
      as Hvariable by reflexivity.
    split; [exact Hvariable|].
    destruct (@double_star_marker_needs_variable
                LexCursor LexCursor_or_None_ops
                lone (start lone) after_marker
                (passes_refl _) Hmarker ltac:(reflexivity))
      as (_ & _ & Hnone & _).
    exact (Hnone Hvariable).
Defined.

End ArgumentListExamples.

(** * Further properties *)

(** ** Token rules *)

Lemma rstrip_empty text :
  rstrip text = "" <-> all_whitespace text.
Proof.
  unfold all_whitespace. induction text as [|c text IH]; [by split|].
  cbn [rstrip]. split.
  - intros Hr. destruct (rstrip text) eqn:Htext; [|done].
    destruct (isspace c) eqn:Hc; [|done].
    intros [|i] d; cbn [String.get]; [by intros [= <-]|].
    by apply IH.
  - intros Hall.
    assert (rstrip text = "") as ->.
    { apply IH. intros i d Hd. by apply (Hall (S i)). }
    by rewrite (Hall 0 c).
Qed.

Lemma drop_while_whitespace text :
  all_whitespace text -> drop_while isspace text = "".
Proof.
  unfold all_whitespace. induction text as [|c text IH]; [done|].
  intros Hall. cbn [drop_while]. rewrite (Hall 0 c) by done.
  apply IH. intros i d Hd. by apply (Hall (S i)).
Qed.

Lemma drop_while_head f text :
  match drop_while f text with
  | String c _ => f c = false
  | EmptyString => True
  end.
Proof.
  induction text as [|c text IH]; [done|].
  cbn [drop_while]. by destruct (f c) eqn:Hc.
Qed.

Lemma drop_while_empty_whitespace text :
  drop_while isspace text = "" -> all_whitespace text.
Proof.
  unfold all_whitespace. induction text as [|c text IH]; [by intros _ []|].
  cbn [drop_while]. destruct (isspace c) eqn:Hc; [|done].
  intros Hrest [|i] d; cbn [String.get]; [by intros [= <-]|].
  by apply IH.
Qed.

(** [text.strip() == ''] says that [text] is whitespace throughout. *)
Lemma strip_empty text :
  is_empty (strip text) = true <-> all_whitespace text.
Proof.
  unfold strip, lstrip. split.
  - intros Hstrip.
    assert (rstrip (drop_while isspace text) = "") as Hr
      by by destruct (rstrip _).
    apply rstrip_empty in Hr.
    pose proof (drop_while_head isspace text) as Hhead.
    destruct (drop_while isspace text) as [|c rest] eqn:Hdrop.
    + by apply drop_while_empty_whitespace.
    + rewrite (Hr 0 c) in Hhead; done.
  - intros Hall. by rewrite drop_while_whitespace.
Qed.

(** A successful match of a token rule records a token of that class
    whose span starts at the cursor; the new position is the end of the
    span, with the line clamped; the source lines stay as they are; only
    [BeginBlock] and [EndBlock] touch the block depth. *)
Theorem token_match_records_span
        (external_parse : string -> Parser -> Result Exn (option Parser))
        (symbol_type : SymbolType) (parser next : Parser) :
  is_token_rule symbol_type = true ->
  Symbol_parse external_parse symbol_type parser = Return (Some next) ->
  _lines next = _lines parser /\
  (symbol_type <> BeginBlock -> symbol_type <> EndBlock ->
   block_depth next = block_depth parser) /\
  exists symbol tok,
    last_symbol next = Some symbol /\
    class_of symbol = symbol_type /\
    as_token symbol = Some tok /\
    first_line tok = line parser /\ first_column tok = column parser /\
    line next = Nat.min (next_line tok) (last_line parser + 1) /\
    column next = next_column tok.
Proof.
  intros Htoken Hnext.
  destruct symbol_type; simpl in Hnext; try done.
  - apply EndFile_parse_inv in Hnext as ->.
    split_and!; [done | done |]. by eexists _, _.
  - apply BlankLine_parse_inv in Hnext as [Hcol ->].
    split_and!; [done | done |]. by eexists _, _.
  - apply EndLine_parse_inv in Hnext as ->.
    split_and!; [done | done |]. by eexists _, _.
  - apply BeginBlock_parse_inv in Hnext as (Hcol & _ & ->).
    split_and!; [done | done |]. by eexists _, _.
  - apply EndBlock_parse_inv in Hnext as (Hcol & _ & ->).
    split_and!; [done | done |]. by eexists _, _.
Qed.

Lemma token_match_records_span_witness :
  let p := {| _lines := ["ab"; "cd"]; line := 0; column := 2;
              last_symbol := None; block_depth := 3 |} in
  exists next,
    EndLine_parse p = Return (Some next) /\
    _lines next = ["ab"; "cd"] /\ block_depth next = 3 /\
    line next = 1 /\ column next = 0.
Proof.
  intros p.
  assert (exists next, EndLine_parse p = Return (Some next)) as [next Hnext]
    by by eexists.
  exists next. split; [exact Hnext|].
  destruct (token_match_records_span (fun _ _ => Return None) EndLine p next)
    as (Hlines & Hdepth & symbol & tok & Hlast & _);
    [reflexivity | exact Hnext |].
  injection Hnext as <-.
  split_and!; [exact Hlines | by apply Hdepth | done | done].
Defined.

(** [BlankLine] never raises, and matches exactly at column 0 of a line
    that is whitespace throughout (empty, blanks, tabs or any other
    whitespace); the lines past the end of the source count as empty. *)
Theorem BlankLine_matches_whitespace_lines (parser : Parser) :
  (forall e, BlankLine_parse parser <> Raise e) /\
  ((exists next, BlankLine_parse parser = Return (Some next)) <->
   column parser = 0 /\ all_whitespace (line_text parser None)) /\
  (length (_lines parser) <= line parser -> column parser = 0 ->
   exists next, BlankLine_parse parser = Return (Some next)).
Proof.
  assert ((exists next, BlankLine_parse parser = Return (Some next)) <->
          column parser = 0 /\ all_whitespace (line_text parser None))
    as Hiff.
  { unfold BlankLine_parse. rewrite <- strip_empty.
    destruct (Nat.eqb_spec (column parser) 0) as [Hcol|Hcol]; cbn [negb].
    - destruct (is_empty _).
      + split; [done | by eexists].
      + split; [by intros [? ?] | by intros [_ ?]].
    - split; [by intros [? ?] | by intros [? _]]. }
  split_and!; [| done |].
  - intros e. unfold BlankLine_parse.
    destruct (negb _); [done|]. by destruct (is_empty _).
  - intros Hpast Hcol. apply Hiff. split; [done|].
    rewrite line_text_past_end by done. by intros [|i] c.
Qed.

(** Wherever [EndFile] matches, [EndLine] matches as well, so a list of
    alternatives has to name [EndFile] first.  Within the clamped range
    of lines the [EndFile] match leaves line, column and block depth as
    they are, and [EndFile] matches again at the cursor it returns. *)
Theorem EndFile_matches_with_EndLine (parser next : Parser) :
  EndFile_parse parser = Return (Some next) ->
  (exists next', EndLine_parse parser = Return (Some next')) /\
  (line parser <= last_line parser + 1 ->
   line next = line parser /\ column next = column parser /\
   block_depth next = block_depth parser /\
   exists again,
     EndFile_parse next = Return (Some again) /\
     line again = line parser /\ column again = column parser).
Proof.
  intros Hnext.
  assert (last_line parser <= line parser /\
          String.length (line_text parser None) <= column parser)
    as [Hlast Hend].
  { unfold EndFile_parse in Hnext.
    destruct (Nat.leb_spec (last_line parser) (line parser)); [|done].
    destruct (Nat.leb_spec (String.length (line_text parser None))
                (column parser)); done. }
  apply EndFile_parse_inv in Hnext as ->. split.
  - unfold EndLine_parse.
    destruct (Nat.leb_spec (String.length (line_text parser None))
                (column parser)); [by eexists | lia].
  - intros Hclamp.
    match goal with
    | |- context [new_from_symbol parser ?s] =>
        set (next := new_from_symbol parser s)
    end.
    assert (line next = line parser) as Hline
      by (simpl; by rewrite Nat.min_l).
    assert (column next = column parser) as Hcol by done.
    assert (line_text next None = line_text parser None) as Htext
      by (unfold line_text; by rewrite Hline).
    assert (last_line next = last_line parser) as Hlast' by done.
    split_and!; [done..|].
    unfold EndFile_parse. rewrite Htext, Hlast', Hline, Hcol.
    destruct (Nat.leb_spec (last_line parser) (line parser)); [|lia].
    destruct (Nat.leb_spec (String.length (line_text parser None))
                (column parser)); [|lia].
    eexists. split; [done|]. clear Htext Hline Hcol Hlast'. subst next.
    simpl. unfold last_line in *. simpl. lia.
Qed.

(** The start of an empty source. *)
Lemma EndFile_matches_with_EndLine_witness :
  exists next,
    EndFile_parse (Parser_new []) = Return (Some next) /\
    (exists next', EndLine_parse (Parser_new []) = Return (Some next')) /\
    line next = 0 /\ column next = 0.
Proof.
  assert (exists next, EndFile_parse (Parser_new []) = Return (Some next))
    as [next Hnext] by by eexists.
  exists next. split; [exact Hnext|].
  destruct (EndFile_matches_with_EndLine (Parser_new []) next Hnext)
    as [Hline Hsame].
  split; [exact Hline|].
  destruct Hsame as (? & ? & _); [simpl; lia|]. done.
Defined.

Lemma measure_at_most_one_deeper parser m :
  _measure_block_depth parser = Return m -> m <= block_depth parser + 1.
Proof.
  unfold _measure_block_depth. cbv zeta.
  set (d := match_end _ / 4).
  destruct (negb (is_empty _)); [done|].
  destruct (negb (_ =? 0)); [done|].
  destruct (Nat.ltb_spec (block_depth parser + 1) d); [done|].
  intros [= <-]. lia.
Qed.

(** At one cursor at most one of [BeginBlock] and [EndBlock] matches,
    and after a [BeginBlock] match neither of them matches at the cursor
    it returns: a block begins one level at a time, and the level just
    entered is the level of the line. *)
Theorem BeginBlock_EndBlock_exclusive (parser : Parser) :
  (forall next, BeginBlock_parse parser = Return (Some next) ->
     EndBlock_parse parser = Return None /\
     BeginBlock_parse next = Return None /\
     EndBlock_parse next = Return None /\
     _measure_block_depth next = Return (block_depth next)) /\
  (forall next, EndBlock_parse parser = Return (Some next) ->
     BeginBlock_parse parser = Return None).
Proof.
  split.
  - intros next Hnext.
    pose proof (BeginBlock_line_in_range _ _ Hnext) as Hrange.
    apply last_line_in_range in Hrange.
    apply BeginBlock_parse_inv in Hnext as (Hcol & (m & Hm & Hlt) & ->).
    pose proof (measure_at_most_one_deeper _ _ Hm) as Hle.
    assert (m = block_depth parser + 1) as -> by lia.
    set (next := new_from_symbol parser _).
    assert (_measure_block_depth next = Return (block_depth parser + 1))
      as Hnext.
    { apply (measure_other_depth parser); [done | | done | simpl; lia].
      simpl. lia. }
    assert (column next = 0) as Hcol' by done.
    assert (block_depth next = block_depth parser + 1) as Hdepth by done.
    split_and!.
    + unfold EndBlock_parse. rewrite Hcol, Hm, bind_Return. cbn [Nat.eqb negb].
      by destruct (Nat.ltb_spec (block_depth parser + 1) (block_depth parser));
        [lia|].
    + unfold BeginBlock_parse. rewrite Hcol', Hnext, bind_Return, Hdepth.
      cbn [Nat.eqb negb]. by rewrite Nat.ltb_irrefl.
    + unfold EndBlock_parse. rewrite Hcol', Hnext, bind_Return, Hdepth.
      cbn [Nat.eqb negb]. by rewrite Nat.ltb_irrefl.
    + by rewrite Hdepth.
  - intros next (Hcol & (m & Hm & Hlt) & _)%EndBlock_parse_inv.
    unfold BeginBlock_parse. rewrite Hcol, Hm, bind_Return. cbn [Nat.eqb negb].
    by destruct (Nat.ltb_spec (block_depth parser) m); [lia|].
Qed.

Lemma measure_raises_IndentationError parser e :
  _measure_block_depth parser = Raise e ->
  exists message at_column,
    e = IndentationError message (line parser) at_column.
Proof.
  unfold _measure_block_depth. cbv zeta.
  destruct (negb (is_empty _)); [intros [= <-]; by eexists _, _|].
  destruct (negb (_ =? 0)); [intros [= <-]; by eexists _, _|].
  destruct (_ <? _); [intros [= <-]; by eexists _, _ | done].
Qed.

(** Of the token rules only [BeginBlock] and [EndBlock] raise, only at
    column 0, and then what [_measure_block_depth] raised. *)
Lemma token_rule_raises
      (external_parse : string -> Parser -> Result Exn (option Parser))
      symbol_type parser e :
  is_token_rule symbol_type = true ->
  Symbol_parse external_parse symbol_type parser = Raise e ->
  (symbol_type = BeginBlock \/ symbol_type = EndBlock) /\
  column parser = 0 /\ _measure_block_depth parser = Raise e.
Proof.
  intros Htoken. destruct symbol_type; simpl; try done.
  - unfold EndFile_parse. by repeat case_match.
  - unfold BlankLine_parse. by repeat case_match.
  - unfold EndLine_parse. by repeat case_match.
  - unfold BeginBlock_parse.
    destruct (Nat.eqb_spec (column parser) 0); [|done]. cbn [negb].
    destruct (_measure_block_depth parser) as [m|e']; [|by intros [= ->]; eauto].
    rewrite bind_Return. by case_match.
  - unfold EndBlock_parse.
    destruct (Nat.eqb_spec (column parser) 0); [|done]. cbn [negb].
    destruct (_measure_block_depth parser) as [m|e']; [|by intros [= ->]; eauto].
    rewrite bind_Return. by case_match.
Qed.

Lemma parse_from_tokens_errors
      (external_parse : string -> Parser -> Result Exn (option Parser))
      self one_of rest i e :
  Forall (fun s => is_token_rule s = true) rest ->
  parse_from external_parse self one_of i rest = Raise e ->
  e = NoMatchError self one_of None \/
  ((BeginBlock ∈ rest \/ EndBlock ∈ rest) /\
   column self = 0 /\ _measure_block_depth self = Raise e).
Proof.
  intros Hrest. revert i.
  induction Hrest as [|s rest Hs _ IH]; intros i; simpl.
  - intros [= <-]. by left.
  - destruct (Symbol_parse external_parse s self) as [[next|]|e'] eqn:Hparse.
    + done.
    + intros [?|([?|?] & ?)]%IH; [by left | right | right];
        (split; [|done]); [left | right]; by apply list_elem_of_further.
    + destruct (token_rule_raises _ _ _ _ Hs Hparse) as (Hcls & Hcol & Hm).
      destruct (measure_raises_IndentationError _ _ Hm) as (msg & col & ->).
      intros [= <-]. right. split; [|done].
      destruct Hcls as [->| ->]; [left | right]; apply list_elem_of_here.
Qed.

(** Trying only token rules, [Parser.parse] fails in one of two ways:
    with the [NoMatchError] for its own cursor and list (raised after the
    loop, so without a cause), or, at column 0 and with [BeginBlock] or
    [EndBlock] in the list, with the [IndentationError] that measuring
    the current line raises.  Away from column 0 a badly indented line
    is never reported. *)
Theorem Parser_parse_token_rules_errors
        (external_parse : string -> Parser -> Result Exn (option Parser))
        (self : Parser) (one_of : list SymbolType) (e : Exn) :
  Forall (fun s => is_token_rule s = true) one_of ->
  Parser_parse external_parse self one_of = Raise e ->
  e = NoMatchError self one_of None \/
  ((BeginBlock ∈ one_of \/ EndBlock ∈ one_of) /\
   column self = 0 /\
   _measure_block_depth self = Raise e /\
   exists message at_column,
     e = IndentationError message (line self) at_column).
Proof.
  intros Htokens Hraise.
  destruct (parse_from_tokens_errors _ _ _ _ _ _ Htokens Hraise)
    as [?|(? & ? & Hm)]; [by left|].
  right. split_and!; [done..|]. by eapply measure_raises_IndentationError.
Qed.

(** In the middle of a line indented by three spaces nothing matches. *)
Lemma Parser_parse_token_rules_errors_witness :
  let self := {| _lines := ["   x"]; line := 0; column := 3;
                 last_symbol := None; block_depth := 0 |} in
  let one_of := [EndFile; BlankLine; EndLine; BeginBlock; EndBlock] in
  Parser_parse (fun _ _ => Return None) self one_of
  = Raise (NoMatchError self one_of None).
Proof.
  intros self one_of.
  destruct (Parser_parse_token_rules_errors
              (fun _ _ => Return None) self one_of
              (NoMatchError self one_of None))
    as [_|(_ & Hcol & _)]; [by repeat constructor | reflexivity | | done].
  reflexivity.
Defined.

Lemma line_text_whitespace parser :
  Forall all_whitespace (_lines parser) ->
  all_whitespace (line_text parser None).
Proof.
  intros Hall. unfold line_text.
  destruct (_ <? _); [|by intros [|i] c].
  destruct (_lines parser !! line parser) as [text|] eqn:Htext;
    [|by intros [|i] c].
  by eapply Forall_lookup_1.
Qed.

Lemma blank_lines_consumed k : forall parser,
  Forall all_whitespace (_lines parser) ->
  column parser = 0 ->
  line parser + k = length (_lines parser) ->
  exists final,
    match_times BlankLine_parse k parser = Return (Some final) /\
    _lines final = _lines parser /\
    line final = length (_lines parser) /\ column final = 0 /\
    block_depth final = block_depth parser.
Proof.
  induction k as [|k IH]; intros parser Hall Hcol Hline.
  - exists parser. split_and!; [done | done | lia | done | done].
  - destruct (proj2 (proj1 (proj2 (BlankLine_matches_whitespace_lines parser))))
      as [next Hnext]; [by auto using line_text_whitespace|].
    pose proof Hnext as [_ ->]%BlankLine_parse_inv.
    destruct (IH (new_from_symbol parser (mkBlankLine
                {| first_line := line parser; next_line := line parser + 1;
                   first_column := 0; next_column := 0 |})))
      as (final & Hrun & ? & ? & ? & ?); [done | done | |].
    + simpl. unfold last_line. lia.
    + exists final. cbn [match_times]. by rewrite Hnext, bind_Return.
Qed.

(** A source whose lines are all whitespace (an empty source too) is
    consumed from its start by as many [BlankLine] matches as it has
    lines; the cursor is then at column 0 of the line after the last,
    at depth 0, and [EndFile] matches there. *)
Theorem blank_source_consumed (lines : list string) :
  Forall all_whitespace lines ->
  exists final,
    match_times BlankLine_parse (length lines) (Parser_new lines)
    = Return (Some final) /\
    line final = length lines /\ column final = 0 /\
    block_depth final = 0 /\
    exists at_end, EndFile_parse final = Return (Some at_end).
Proof.
  intros Hall.
  destruct (blank_lines_consumed (length lines) (Parser_new lines))
    as (final & Hrun & Hlines & Hline & Hcol & Hdepth); [done..|].
  exists final. split_and!; [done..|].
  unfold EndFile_parse.
  assert (line_text final None = "") as ->
    by (apply line_text_past_end; rewrite Hlines, Hline; done).
  rewrite Hcol, Hline. simpl in *.
  unfold last_line. rewrite Hlines.
  destruct (Nat.leb_spec (0 `max` (length lines - 1)) (length lines));
    [by eexists | lia].
Qed.

(** Two blank lines, the second holding a tab. *)
Lemma blank_source_consumed_witness :
  let lines := [""; String (ascii_of_nat 9) " "] in
  Forall all_whitespace lines /\
  exists final,
    match_times BlankLine_parse 2 (Parser_new lines) = Return (Some final) /\
    line final = 2 /\ column final = 0.
Proof.
  intros lines.
  assert (Forall all_whitespace lines) as Hall.
  { repeat constructor.
    - by intros [|i] c.
    - intros [|[|[|i]]] c; cbn; intros [= <-]; done. }
  split; [exact Hall|].
  destruct (blank_source_consumed lines Hall)
    as (final & Hrun & Hline & Hcol & _).
  by exists final.
Defined.

(** ** The argument list rule *)

Section ArgumentListShapeFacts.

Import argument_list.

Context {Cursor : Type} `{CursorOps Cursor}.

Ltac crunch_pass Hpass :=
  unfold loop_body, after_entry, dispatch, deref, mbind, Result_bind in Hpass;
  repeat case_match; simplify_eq/=.

Lemma filter_length_snoc (f : Argument -> bool) l x :
  length (List.filter f (l ++ [x]))
  = length (List.filter f l) + Nat.b2n (f x).
Proof.
  rewrite List.filter_app, length_app. simpl. by destruct (f x).
Qed.

(** The rewrite of the [/] branch keeps an entry's variable and its
    extra flag. *)
Lemma filter_length_position_only (f : Argument -> bool) l :
  (forall a, f a = true -> is_extra a = true) ->
  length (List.filter f (rewrite_position_only l))
  = length (List.filter f l).
Proof.
  intros Hextra. rewrite rewrite_position_only_map.
  induction l as [|a l IH]; [done|]. simpl.
  destruct (is_extra a) eqn:Ha.
  - destruct (f a); simpl; by rewrite IH.
  - destruct (f a) eqn:Hfa; [apply Hextra in Hfa; congruence|].
    destruct (f (mkArgument _ _ _ _)) eqn:Hf; [by apply Hextra in Hf | done].
Qed.

Lemma in_signature_order_snoc l x :
  in_signature_order l ->
  (is_extra x = false ->
   Forall (fun a => is_extra a = false ->
                    (is_keyword a = true -> is_keyword x = true) /\
                    (is_positional x = true -> is_positional a = true)) l) ->
  in_signature_order (l ++ [x]).
Proof.
  intros Horder Hx i j a b Hij Ha Hb Hea Heb.
  destruct (decide (j < length l)) as [Hj|Hj].
  - rewrite lookup_app_l in Ha, Hb by lia. eauto.
  - assert (j = length l) as ->.
    { apply lookup_lt_Some in Hb. rewrite length_app in Hb. simpl in Hb. lia. }
    rewrite lookup_app_l in Ha by lia.
    rewrite list_lookup_middle in Hb by done. injection Hb as <-.
    by eapply (Forall_lookup_1 _ _ _ _ (Hx Heb) Ha).
Qed.

Lemma in_signature_order_position_only l :
  in_signature_order (rewrite_position_only l).
Proof.
  rewrite rewrite_position_only_map.
  intros i j a b _ Ha Hb Hea Heb.
  change (map ?f l) with (f <$> l) in Ha, Hb.
  rewrite list_lookup_fmap in Ha, Hb.
  destruct (l !! i) as [a0|]; [|done]. destruct (l !! j) as [b0|]; [|done].
  simpl in Ha, Hb. injection Ha as <-. injection Hb as <-.
  destruct (is_extra a0) eqn:Ha0; [congruence|].
  destruct (is_extra b0) eqn:Hb0; [congruence|]. done.
Qed.

Lemma Forall_position_only (P : Argument -> Prop) l :
  Forall P l ->
  (forall v, P (mkArgument v true false false)) ->
  Forall P (rewrite_position_only l).
Proof.
  intros Hall Hplain. rewrite rewrite_position_only_map.
  apply Forall_fmap, Forall_forall. intros a Ha. simpl.
  destruct (is_extra a); [|apply Hplain].
  rewrite Forall_forall in Hall. by apply Hall.
Qed.

Lemma filter_extra_positional_position_only l :
  length (List.filter is_extra_positional (rewrite_position_only l))
  = length (List.filter is_extra_positional l).
Proof.
  apply filter_length_position_only. intros a.
  unfold is_extra_positional. by intros [? ?]%andb_prop.
Qed.

Lemma filter_extra_keyword_position_only l :
  length (List.filter is_extra_keyword (rewrite_position_only l))
  = length (List.filter is_extra_keyword l).
Proof.
  apply filter_length_position_only. intros a.
  unfold is_extra_keyword. by intros [? ?]%andb_prop.
Qed.

(** Every pass keeps the flags in step with the list. *)
Lemma loop_body_flags_describe_list (l l' : Locals Cursor) :
  flags_describe_list l ->
  loop_body l = Return (Continue l') \/ loop_body l = Return (Break l') ->
  flags_describe_list l'.
Proof.
  destruct l as [args se sb sxp sxk c].
  intros (Hxp & Hxk & Hfacets & Horder & Hpos) [Hpass|Hpass];
    crunch_pass Hpass; unfold flags_describe_list; simpl in *;
    rewrite ?filter_length_snoc, ?filter_extra_positional_position_only,
      ?filter_extra_keyword_position_only; simpl; split_and!.
  all: try lia.
  all: try done.
  all: try (apply Forall_position_only; [by auto | by split]).
  all: try apply in_signature_order_position_only.
  all: try (apply Forall_app; split; [done|]; apply Forall_singleton;
            try destruct sb; by split).
  all: try (intros _; apply Forall_position_only; [by apply Hpos | done]).
  all: try (intros Hsb; apply Forall_app; split; [by apply Hpos|];
            apply Forall_singleton; simpl; by rewrite ?Hsb).
  all: try (apply in_signature_order_snoc; [done|]; by intros [=]).
  all: try (apply in_signature_order_snoc; [done|]; intros _; destruct sb;
            simpl;
            [ apply Forall_forall; by intros
            | eapply Forall_impl; [by apply Hpos|]; simpl;
              intros a' Ha' Hea'; split; [done | intros _; by apply Ha'] ]).
Qed.

Lemma parse_loop_flags_describe_list fuel : forall (l : Locals Cursor) r,
  flags_describe_list l ->
  parse_loop fuel l = Some (Return r) ->
  exists l',
    flags_describe_list l' /\
    r = new_from_symbol (cursor l') (mkArgumentList (arguments l')).
Proof.
  induction fuel as [|fuel IH]; intros l r Hl; [done|].
  cbn [parse_loop].
  destruct (loop_body l) as [[l'|l']|e] eqn:Hpass; [| |done].
  - apply IH. apply (loop_body_flags_describe_list l); [done | by left].
  - intros [= <-]. exists l'. split; [|done].
    apply (loop_body_flags_describe_list l); [done | by right].
Qed.

Lemma flags_describe_list_initial (cursor : Cursor) :
  flags_describe_list (mkLocals [] false false false false cursor).
Proof.
  split_and!; [done | done | done | | done]. by intros i j a b _ ?.
Qed.

(** Whatever the cursor and however many passes it takes, a list that
    [ArgumentList.parse] returns holds at most one extra positional
    entry and at most one extra keyword entry; each of its entries is
    positional or keyword, and an extra entry exactly one of the two. *)
Theorem ArgumentList_parse_extras_unique
        (fuel : nat) (cursor result : Cursor) :
  ArgumentList_parse fuel cursor = Some (Return result) ->
  exists final arguments,
    result = new_from_symbol final (mkArgumentList arguments) /\
    length (List.filter is_extra_positional arguments) <= 1 /\
    length (List.filter is_extra_keyword arguments) <= 1 /\
    Forall facets_consistent arguments.
Proof.
  intros Hparse.
  destruct (parse_loop_flags_describe_list fuel _ _
              (flags_describe_list_initial cursor) Hparse)
    as (l & (Hxp & Hxk & Hfacets & _) & ->).
  exists (argument_list.cursor l), (arguments l).
  split_and!; [done | | | done].
  - rewrite Hxp. destruct (saw_extra_positionals l); simpl; lia.
  - rewrite Hxk. destruct (saw_extra_keywords l); simpl; lia.
Qed.

(** In a list that [ArgumentList.parse] returns, the entries that are
    not extra stand in the order positional-only, positional and
    keyword, keyword-only: no entry that refuses keywords follows one
    that accepts them, and no entry that accepts positions follows one
    that refuses them. *)
Theorem ArgumentList_parse_signature_order
        (fuel : nat) (cursor result : Cursor) :
  ArgumentList_parse fuel cursor = Some (Return result) ->
  exists final arguments,
    result = new_from_symbol final (mkArgumentList arguments) /\
    in_signature_order arguments.
Proof.
  intros Hparse.
  destruct (parse_loop_flags_describe_list fuel _ _
              (flags_describe_list_initial cursor) Hparse)
    as (l & (_ & _ & _ & Horder & _) & ->).
  by exists (argument_list.cursor l), (arguments l).
Qed.

(** A pass of the loop appends at most one entry, and leaves every
    earlier entry in its place with its variable and its extra flag,
    also when it rewrites the list at [/]. *)
Theorem loop_body_keeps_variables (l l' : Locals Cursor) :
  loop_body l = Return (Continue l') \/ loop_body l = Return (Break l') ->
  exists appended,
    length appended <= 1 /\
    map (fun a => (variable a, is_extra a)) (arguments l')
    = map (fun a => (variable a, is_extra a)) (arguments l) ++ appended.
Proof.
  assert (forall args,
            map (fun a => (variable a, is_extra a))
                (rewrite_position_only args)
            = map (fun a => (variable a, is_extra a)) args) as Hrewrite.
  { intros args. rewrite rewrite_position_only_map, List.map_map.
    apply List.map_ext. intros a.
    destruct (is_extra a) eqn:Ha; simpl; by rewrite ?Ha. }
  intros [Hpass|Hpass]; crunch_pass Hpass;
    rewrite ?Hrewrite, ?List.map_app;
    solve [ exists []; split; [simpl; lia | by rewrite app_nil_r]
          | eexists [_]; split; [simpl; lia | done] ].
Qed.

End ArgumentListShapeFacts.

Section ArgumentListShapeExamples.

Import argument_list.

(** The lexemes of [a, /, b, *args, c, **kw]. *)
Lemma ArgumentList_parse_extras_unique_witness :
  exists result final arguments,
    ArgumentList_parse 6
      (lex_start [Name "a"; Mark ","; Mark "/"; Mark ","; Name "b";
                  Mark ","; Mark "*"; Name "args"; Mark ",";
                  Name "c"; Mark ","; Mark "**"; Name "kw"])
    = Some (Return result) /\
    result = new_from_symbol final (mkArgumentList arguments) /\
    length (List.filter is_extra_positional arguments) <= 1 /\
    length (List.filter is_extra_keyword arguments) <= 1.
Proof.
  assert (exists r,
            ArgumentList_parse 6
              (lex_start [Name "a"; Mark ","; Mark "/"; Mark ","; Name "b";
                          Mark ","; Mark "*"; Name "args"; Mark ",";
                          Name "c"; Mark ","; Mark "**"; Name "kw"])
            = Some (Return r)) as [r Hr]
    by (eexists; vm_compute; reflexivity).
  destruct (ArgumentList_parse_extras_unique _ _ _ Hr)
    as (final & arguments & Heq & Hxp & Hxk & _).
  exists r, final, arguments.
  split; [exact Hr|]. split; [exact Heq|]. split; [exact Hxp | exact Hxk].
Defined.

Lemma ArgumentList_parse_signature_order_witness :
  exists result final arguments,
    ArgumentList_parse 6
      (lex_start [Name "a"; Mark ","; Mark "/"; Mark ","; Name "b";
                  Mark ","; Mark "*"; Name "args"; Mark ",";
                  Name "c"; Mark ","; Mark "**"; Name "kw"])
    = Some (Return result) /\
    result = new_from_symbol final (mkArgumentList arguments) /\
    in_signature_order arguments.
Proof.
  assert (exists r,
            ArgumentList_parse 6
              (lex_start [Name "a"; Mark ","; Mark "/"; Mark ","; Name "b";
                          Mark ","; Mark "*"; Name "args"; Mark ",";
                          Name "c"; Mark ","; Mark "**"; Name "kw"])
            = Some (Return r)) as [r Hr]
    by (eexists; vm_compute; reflexivity).
  destruct (ArgumentList_parse_signature_order _ _ _ Hr)
    as (final & arguments & Heq & Horder).
  exists r, final, arguments.
  split; [exact Hr|]. split; [exact Heq | exact Horder].
Defined.

(** The pass at [/] in [a, /, b]. *)
Lemma loop_body_keeps_variables_witness :
  let l := mkLocals [mkArgument (var "a") true true false]
             false false false false
             {| remaining := [Mark "/"; Mark ","; Name "b"];
                lex_last_symbol := Some (mkCharacters ",") |} in
  exists l' appended,
    loop_body l = Return (Continue l') /\
    length appended <= 1 /\
    map (fun a => (variable a, is_extra a)) (arguments l')
    = [(var "a", false)] ++ appended.
Proof.
  intros l.
  assert (exists l', loop_body l = Return (Continue l')) as [l' Hl']
    by (eexists; vm_compute; reflexivity).
  destruct (loop_body_keeps_variables l l' (or_introl Hl'))
    as (appended & Hlen & Hmap).
  exists l', appended.
  split; [exact Hl'|]. split; [exact Hlen | exact Hmap].
Defined.

End ArgumentListShapeExamples.


(** ** Namespaces *)

Section NamespaceFacts.

Import constructs.

Lemma dict_get_set_eq key value d :
  dict_get key (dict_set key value d) = Some value.
Proof.
  induction d as [|[k v] d IH]; simpl.
  - by rewrite String.eqb_refl.
  - destruct (String.eqb_spec key k) as [->|Hne]; simpl.
    + by rewrite String.eqb_refl.
    + by destruct (String.eqb_spec key k).
Qed.

Lemma dict_get_set_ne key key' value d :
  key <> key' ->
  dict_get key' (dict_set key value d) = dict_get key' d.
Proof.
  intros Hne. induction d as [|[k v] d IH]; simpl.
  - by destruct (String.eqb_spec key' key); [congruence|].
  - destruct (String.eqb_spec key k) as [->|Hk]; simpl.
    + by destruct (String.eqb_spec key' k); [congruence|].
    + by rewrite IH.
Qed.

Lemma assign_Some (store : Store) ref f obj :
  store !! ref = Some obj ->
  assign store ref f = Some (<[ref := f obj]> store).
Proof. intros Hobj. unfold assign. by rewrite Hobj. Qed.

(** [self[name]] when the name is filed already. *)
Lemma getitem_existing (store : Store) self name obj child :
  store !! self = Some obj ->
  dict_get name (_members obj) = Some child ->
  Namespace_getitem store self name = Some (child, store).
Proof.
  intros Hobj Hget. unfold Namespace_getitem.
  rewrite Hobj. simpl. rewrite Hget. simpl. rewrite Hobj. simpl.
  by rewrite Hget.
Qed.

(** [self[name]] when it is not: the store after the four assignments. *)
Lemma getitem_fresh (store : Store) self name obj :
  store !! self = Some obj ->
  dict_get name (_members obj) = None ->
  Namespace_getitem store self name
  = Some (length store,
          <[self := set_members
                      (dict_set name (length store) (_members obj)) obj]>
            (store ++ [{| _name := Some name; _parent := Some self;
                          _construct := None; _members := [] |}])).
Proof.
  intros Hobj Hget.
  pose proof (lookup_lt_Some _ _ _ Hobj) as Hlt.
  unfold Namespace_getitem, Namespace_new.
  rewrite Hobj. simpl. rewrite Hget.
  set (fresh := {| _name := None; _parent := None;
                   _construct := None; _members := [] |}).
  set (obj' := set_members (dict_set name (length store) (_members obj)) obj).
  rewrite (assign_Some (store ++ [fresh]) self _ obj)
    by by rewrite lookup_app_l.
  simpl. fold obj'.
  assert (<[self := obj']> (store ++ [fresh])
          = <[self := obj']> store ++ [fresh]) as Hins
    by by rewrite insert_app_l.
  rewrite Hins.
  assert (length (<[self := obj']> store) = length store) as Hlen
    by apply length_insert.
  rewrite (assign_Some _ (length store) _ fresh)
    by (rewrite <- Hlen at 1; apply list_lookup_middle; done).
  simpl.
  rewrite (insert_app_r_alt _ _ (length store)) by lia.
  rewrite Hlen, Nat.sub_diag. simpl.
  rewrite (assign_Some _ (length store) _ (set_name name fresh))
    by (rewrite <- Hlen at 1; apply list_lookup_middle; done).
  simpl.
  rewrite (insert_app_r_alt _ _ (length store)) by lia.
  rewrite Hlen, Nat.sub_diag. simpl.
  rewrite lookup_app_l by lia.
  rewrite list_lookup_insert_eq by done. simpl.
  unfold obj' at 1. simpl. rewrite dict_get_set_eq. simpl.
  by rewrite insert_app_l.
Qed.

Lemma consistent_empty : consistent [].
Proof. by intros ref obj. Qed.

(** A new object whose parent, if it has one, is in the store. *)
Lemma consistent_app (store : Store) fresh :
  consistent store ->
  (forall parent, _parent fresh = Some parent -> parent < length store) ->
  _members fresh = [] -> _construct fresh = None ->
  consistent (store ++ [fresh]).
Proof.
  intros Hstore Hparent Hmembers Hconstruct ref obj Hobj.
  destruct (decide (ref < length store)) as [Hlt|Hge].
  - rewrite lookup_app_l in Hobj by done.
    destruct (Hstore ref obj Hobj) as (Hp & Hm & Hc).
    split_and!; [done | | done].
    intros n child Hchild.
    destruct (Hm n child Hchild) as (cobj & Hcobj & ?).
    exists cobj. split; [|done].
    rewrite lookup_app_l; [done|]. by eapply lookup_lt_Some.
  - assert (ref = length store) as ->.
    { apply lookup_lt_Some in Hobj. rewrite length_app in Hobj.
      simpl in Hobj. lia. }
    rewrite list_lookup_middle in Hobj by done. injection Hobj as <-.
    split_and!; [done | | ].
    + intros n child. by rewrite Hmembers.
    + intros c. by rewrite Hconstruct.
Qed.

(** An object replaced by one with the same name and parent, whose
    members and construct are in order. *)
Lemma consistent_insert (store : Store) self obj obj' :
  consistent store ->
  store !! self = Some obj ->
  _name obj' = _name obj -> _parent obj' = _parent obj ->
  (forall n child, dict_get n (_members obj') = Some child ->
     exists cobj, store !! child = Some cobj /\
                  _name cobj = Some n /\ _parent cobj = Some self) ->
  (forall c, _construct obj' = Some c ->
     _name obj' = Some (name c) /\ _parent obj' = Some (namespace c)) ->
  consistent (<[self := obj']> store).
Proof.
  intros Hstore Hself Hname Hparent Hmembers Hconstruct.
  pose proof (lookup_lt_Some _ _ _ Hself) as Hlt.
  assert (forall child cobj n p,
            store !! child = Some cobj ->
            _name cobj = Some n -> _parent cobj = Some p ->
            exists cobj', <[self := obj']> store !! child = Some cobj' /\
                          _name cobj' = Some n /\ _parent cobj' = Some p)
    as Hkeep.
  { intros child cobj n p Hcobj Hn Hp.
    destruct (decide (child = self)) as [Heq|Hne].
    - exists obj'. rewrite Heq, list_lookup_insert_eq by done.
      assert (cobj = obj) as -> by congruence.
      split_and!; congruence.
    - exists cobj. by rewrite list_lookup_insert_ne. }
  intros ref robj Hrobj.
  destruct (decide (ref = self)) as [Heq|Hne].
  - rewrite Heq in *. clear Heq.
    rewrite list_lookup_insert_eq in Hrobj by done. injection Hrobj as <-.
    destruct (Hstore self obj Hself) as (Hp & _ & _).
    split_and!; [by rewrite Hparent | | done].
    intros n child Hchild.
    destruct (Hmembers n child Hchild) as (cobj & ? & ? & ?). eauto.
  - rewrite list_lookup_insert_ne in Hrobj by done.
    destruct (Hstore ref robj Hrobj) as (Hp & Hm & Hc).
    split_and!; [done | | done].
    intros n child Hchild.
    destruct (Hm n child Hchild) as (cobj & ? & ? & ?). eauto.
Qed.

Lemma getitem_consistent (store store' : Store) self name child :
  consistent store ->
  Namespace_getitem store self name = Some (child, store') ->
  consistent store'.
Proof.
  intros Hstore Hget.
  destruct (store !! self) as [obj|] eqn:Hself;
    [|by unfold Namespace_getitem in Hget; rewrite Hself in Hget].
  pose proof (lookup_lt_Some _ _ _ Hself) as Hlt.
  destruct (dict_get name (_members obj)) as [found|] eqn:Hfound.
  - rewrite (getitem_existing _ _ _ _ _ Hself Hfound) in Hget.
    by injection Hget as <- <-.
  - rewrite (getitem_fresh _ _ _ _ Hself Hfound) in Hget.
    injection Hget as <- <-.
    set (fresh := {| _name := Some name; _parent := Some self;
                     _construct := None; _members := [] |}).
    assert (consistent (store ++ [fresh])) as Happ.
    { apply consistent_app; [done | | done | done].
      intros parent [= <-]. done. }
    apply (consistent_insert _ _ obj); [done | | done | done | |].
    + by rewrite lookup_app_l.
    + simpl. intros n c Hc.
      destruct (decide (name = n)) as [<-|Hne].
      * rewrite dict_get_set_eq in Hc. injection Hc as <-.
        exists fresh. split; [by apply list_lookup_middle | done].
      * rewrite dict_get_set_ne in Hc by done.
        destruct (Hstore self obj Hself) as (_ & Hm & _).
        destruct (Hm n c Hc) as (cobj & Hcobj & ?).
        exists cobj. split; [|done].
        rewrite lookup_app_l; [done|]. by eapply lookup_lt_Some.
    + simpl. by destruct (Hstore self obj Hself) as (_ & _ & Hc).
Qed.

(** In a consistent store the chain of parents of an object is shorter
    than its address, so [path] has a value whatever the fuel beyond
    that. *)
Lemma path_within_total (store : Store) :
  consistent store ->
  forall bound self, self < bound -> self < length store ->
  exists path, forall fuel, self < fuel ->
    path_within fuel store self = Some path.
Proof.
  intros Hstore bound. induction bound as [|bound IH]; intros self Hb Hlt;
    [lia|].
  destruct (lookup_lt_is_Some_2 store self Hlt) as [obj Hobj].
  destruct (Hstore self obj Hobj) as (Hparent & _ & _).
  destruct (_parent obj) as [parent|] eqn:Hp.
  - specialize (Hparent parent eq_refl).
    destruct (IH parent) as [above Habove]; [lia | lia |].
    eexists. intros [|fuel] Hfuel; [lia|]. cbn [path_within].
    rewrite Hobj. simpl. rewrite Hp, Habove by lia. done.
  - eexists. intros [|fuel] Hfuel; [lia|]. cbn [path_within].
    rewrite Hobj. simpl. rewrite Hp. done.
Qed.

Lemma Namespace_path_total (store : Store) self :
  consistent store -> self < length store ->
  exists path, Namespace_path store self = Some path /\
               forall fuel, self < fuel ->
                 path_within fuel store self = Some path.
Proof.
  intros Hstore Hlt.
  destruct (path_within_total store Hstore (S self) self) as [path Hpath];
    [lia | done |].
  exists path. split; [by apply Hpath | done].
Qed.

(** The path of an object depends on the names and parents along its
    chain only. *)
Lemma path_within_ext (store store' : Store) fuel : forall self path,
  (forall ref obj, store !! ref = Some obj ->
     exists obj', store' !! ref = Some obj' /\
                  _name obj' = _name obj /\ _parent obj' = _parent obj) ->
  path_within fuel store self = Some path ->
  path_within fuel store' self = Some path.
Proof.
  induction fuel as [|fuel IH]; intros self path Hsame; [done|].
  cbn [path_within].
  destruct (store !! self) as [obj|] eqn:Hobj; [|done].
  destruct (Hsame self obj Hobj) as (obj' & -> & Hname & Hparent). simpl.
  rewrite Hname, Hparent.
  destruct (_parent obj) as [parent|]; [|done].
  destruct (path_within fuel store parent) as [above|] eqn:Habove; [|done].
  by rewrite (IH parent above Hsame Habove).
Qed.

Lemma resolve_within_nearest (store : Store) name :
  consistent store ->
  forall fuel self, self < fuel -> self < length store ->
  exists r,
    resolve_within fuel store self name = Some r /\
    match r with
    | Return found =>
        exists k owner,
          ancestor store k self = Some owner /\
          has_member store owner name found /\
          forall j o, j < k -> ancestor store j self = Some o ->
                      lacks_member store o name
    | Raise e =>
        e = KeyError name /\
        forall k owner, ancestor store k self = Some owner ->
                        lacks_member store owner name
    end.
Proof.
  intros Hstore fuel. induction fuel as [|fuel IH]; intros self Hf Hlt; [lia|].
  destruct (lookup_lt_is_Some_2 store self Hlt) as [obj Hobj].
  destruct (Hstore self obj Hobj) as (Hparent & _ & _).
  cbn [resolve_within]. rewrite Hobj. simpl.
  destruct (dict_get name (_members obj)) as [found|] eqn:Hfound.
  - eexists. split; [done|]. exists 0, self.
    split_and!; [done | by exists obj | intros; lia].
  - assert (lacks_member store self name) as Hlacks by by exists obj.
    destruct (_parent obj) as [parent|] eqn:Hp.
    + specialize (Hparent parent eq_refl).
      destruct (IH parent) as (r & -> & Hr); [lia | lia |].
      exists r. split; [done|]. destruct r as [found|e].
      * destruct Hr as (k & owner & Hk & Hmember & Hcloser).
        exists (S k), owner. split_and!; [| done |].
        -- cbn [ancestor]. rewrite Hobj. simpl. by rewrite Hp.
        -- intros [|j] o Hj; cbn [ancestor].
           ++ by intros [= <-].
           ++ rewrite Hobj. simpl. rewrite Hp. simpl. apply Hcloser. lia.
      * destruct Hr as [-> Hnone]. split; [done|].
        intros [|k] owner; cbn [ancestor].
        -- by intros [= <-].
        -- rewrite Hobj. simpl. rewrite Hp. simpl. apply Hnone.
    + eexists. split; [done|]. split; [done|].
      intros [|k] owner; cbn [ancestor].
      * by intros [= <-].
      * rewrite Hobj. simpl. by rewrite Hp.
Qed.

Lemma dict_set_absent key value d :
  dict_get key d = None -> dict_set key value d = d ++ [(key, value)].
Proof.
  induction d as [|[k v] d IH]; [done|]. simpl.
  destruct (String.eqb key k); [done|]. intros Hd. by rewrite IH.
Qed.

Lemma consistent_root : consistent (Namespace_new []).2.
Proof. by apply (consistent_app []); [apply consistent_empty | | |]. Qed.

(** What [self[name]] returns is filed under [name] in [self], carries
    that name and has [self] as its parent. *)
Lemma getitem_member (store store' : Store) self name child :
  consistent store ->
  Namespace_getitem store self name = Some (child, store') ->
  has_member store' self name child /\
  exists cobj, store' !! child = Some cobj /\
               _name cobj = Some name /\ _parent cobj = Some self /\
               (store' = store \/
                (child = length store /\ _construct cobj = None /\
                 _members cobj = [])).
Proof.
  intros Hstore Hget.
  destruct (store !! self) as [obj|] eqn:Hself;
    [|by unfold Namespace_getitem in Hget; rewrite Hself in Hget].
  pose proof (lookup_lt_Some _ _ _ Hself) as Hlt.
  destruct (dict_get name (_members obj)) as [found|] eqn:Hfound.
  - rewrite (getitem_existing _ _ _ _ _ Hself Hfound) in Hget.
    injection Hget as <- <-. split; [by exists obj|].
    destruct (Hstore self obj Hself) as (_ & Hm & _).
    destruct (Hm name found Hfound) as (cobj & ? & ? & ?).
    exists cobj. split_and!; [done | done | done | by left].
  - rewrite (getitem_fresh _ _ _ _ Hself Hfound) in Hget.
    injection Hget as <- <-. split.
    + eexists. split.
      * apply list_lookup_insert_eq. rewrite length_app. lia.
      * simpl. apply dict_get_set_eq.
    + eexists. split.
      * rewrite list_lookup_insert_ne by lia. by apply list_lookup_middle.
      * split_and!; [done | done |]. by right.
Qed.

(** [self[name]] gets or creates.  In a consistent store it always has
    a result; asking again gives the same object and changes nothing;
    [self.resolve(name)] then finds that object; every object that was
    there keeps its name, parent and construct, and every one but [self]
    is untouched; what was filed in [self] stays filed; and a created
    child goes last among the members. *)
Theorem Namespace_getitem_get_or_create
        (store : Store) (self : Ref) (name : string) :
  consistent store -> self < length store ->
  exists child store',
    Namespace_getitem store self name = Some (child, store') /\
    Namespace_getitem store' self name = Some (child, store') /\
    Namespace_resolve store' self name = Some (Return child) /\
    (forall ref obj, store !! ref = Some obj ->
       exists obj', store' !! ref = Some obj' /\
                    _name obj' = _name obj /\ _parent obj' = _parent obj /\
                    _construct obj' = _construct obj /\
                    (ref <> self -> obj' = obj)) /\
    (forall n found, has_member store self n found ->
                     has_member store' self n found) /\
    (store' = store \/
     child = length store /\
     length store' = S (length store) /\
     exists members,
       Namespace_members store self = Some members /\
       Namespace_members store' self = Some (members ++ [child])).
Proof.
  intros Hstore Hlt.
  destruct (lookup_lt_is_Some_2 store self Hlt) as [obj Hobj].
  destruct (dict_get name (_members obj)) as [found|] eqn:Hfound.
  - exists found, store.
    pose proof (getitem_existing _ _ _ _ _ Hobj Hfound) as Hget.
    split_and!; [done | done | | | done | by left].
    + unfold Namespace_resolve. destruct (length store) as [|n]; [lia|].
      cbn [resolve_within]. rewrite Hobj. simpl. by rewrite Hfound.
    + intros ref o Ho. by exists o.
  - pose proof (getitem_fresh _ _ _ _ Hobj Hfound) as Hget.
    set (fresh := {| _name := Some name; _parent := Some self;
                     _construct := None; _members := [] |}) in *.
    set (obj' := set_members
                   (dict_set name (length store) (_members obj)) obj) in *.
    set (store' := <[self := obj']> (store ++ [fresh])) in *.
    assert (store' !! self = Some obj') as Hself'.
    { apply list_lookup_insert_eq. rewrite length_app. lia. }
    assert (dict_get name (_members obj') = Some (length store)) as Hfound'
      by apply dict_get_set_eq.
    exists (length store), store'.
    split_and!; [done | | | | |].
    + by apply (getitem_existing _ _ _ obj').
    + unfold Namespace_resolve.
      assert (length store' = S (length store)) as ->.
      { unfold store'. rewrite length_insert, length_app. simpl. lia. }
      cbn [resolve_within]. rewrite Hself'. cbn [mbind option_bind].
      by rewrite Hfound'.
    + intros ref o Ho.
      destruct (decide (ref = self)) as [->|Hne].
      * exists obj'. assert (o = obj) as -> by congruence. by split_and!.
      * exists o. split_and!; [|done..]. unfold store'.
        rewrite list_lookup_insert_ne by done.
        rewrite lookup_app_l; [done|]. by eapply lookup_lt_Some.
    + intros n c (o & Ho & Hc). assert (o = obj) as -> by congruence.
      exists obj'. split; [done|]. simpl.
      rewrite dict_get_set_ne; [done|]. intros ->. congruence.
    + right. split_and!; [done | |].
      * unfold store'. rewrite length_insert, length_app. simpl. lia.
      * exists (map snd (_members obj)).
        unfold Namespace_members. rewrite Hobj, Hself'. simpl.
        split; [done|].
        by rewrite dict_set_absent, List.map_app by done.
Qed.

(** [self.resolve(name)] in a consistent store always has a result: the
    object filed under [name] in the nearest object up the chain of
    parents, [self] included, that has one; or [KeyError(name)] when no
    object of the chain has one. *)
Theorem Namespace_resolve_nearest
        (store : Store) (self : Ref) (name : string) :
  consistent store -> self < length store ->
  exists r,
    Namespace_resolve store self name = Some r /\
    match r with
    | Return found =>
        exists k owner,
          ancestor store k self = Some owner /\
          has_member store owner name found /\
          forall j o, j < k -> ancestor store j self = Some o ->
                      lacks_member store o name
    | Raise e =>
        e = KeyError name /\
        forall k owner, ancestor store k self = Some owner ->
                        lacks_member store owner name
    end.
Proof.
  intros Hstore Hlt. by apply resolve_within_nearest.
Qed.

Lemma path_of_member (store : Store) self child cobj name path :
  consistent store ->
  store !! child = Some cobj ->
  _parent cobj = Some self -> _name cobj = Some name ->
  (forall fuel, self < fuel -> path_within fuel store self = Some path) ->
  Namespace_path store child
  = Some (path ++ if String.eqb name "" then [] else [name]).
Proof.
  intros Hstore Hchild Hparent Hname Hpath.
  pose proof (lookup_lt_Some _ _ _ Hchild) as Hlt.
  destruct (Hstore child cobj Hchild) as (Hbefore & _ & _).
  specialize (Hbefore self Hparent).
  unfold Namespace_path.
  destruct (length store) as [|fuel] eqn:Hlen; [lia|].
  cbn [path_within]. rewrite Hchild. simpl.
  rewrite Hparent, Hpath by lia. simpl. by rewrite Hname.
Qed.

(** The path of [self[name]] is the path of [self] followed by [name];
    an empty name adds nothing. *)
Theorem Namespace_path_of_child
        (store store' : Store) (self child : Ref) (name : string) :
  consistent store ->
  Namespace_getitem store self name = Some (child, store') ->
  exists path,
    Namespace_path store self = Some path /\
    Namespace_path store' self = Some path /\
    Namespace_path store' child
    = Some (path ++ if String.eqb name "" then [] else [name]).
Proof.
  intros Hstore Hget.
  pose proof (getitem_consistent _ _ _ _ _ Hstore Hget) as Hstore'.
  destruct (getitem_member _ _ _ _ _ Hstore Hget)
    as ((obj' & Hself' & _) & cobj & Hchild & Hname & Hparent & _).
  destruct (store !! self) as [obj|] eqn:Hself;
    [|by unfold Namespace_getitem in Hget; rewrite Hself in Hget].
  pose proof (lookup_lt_Some _ _ _ Hself) as Hlt.
  pose proof (lookup_lt_Some _ _ _ Hself') as Hlt'.
  destruct (Namespace_path_total store self Hstore Hlt) as (path & Hpath & _).
  destruct (Namespace_path_total store' self Hstore' Hlt')
    as (path' & Hpath' & Hfuel').
  assert (path' = path) as ->.
  { destruct (dict_get name (_members obj)) as [found|] eqn:Hfound.
    - rewrite (getitem_existing _ _ _ _ _ Hself Hfound) in Hget.
      injection Hget as _ <-. congruence.
    - rewrite (getitem_fresh _ _ _ _ Hself Hfound) in Hget.
      injection Hget as _ Hstore_eq.
      assert (path_within (length store) store' self = Some path) as Hsame.
      { apply (path_within_ext store); [|done].
        intros ref o Ho. rewrite <- Hstore_eq.
        destruct (decide (ref = self)) as [Heq|Hne].
        - rewrite Heq in *.
          rewrite list_lookup_insert_eq by (rewrite length_app; lia).
          eexists. split; [done|].
          assert (o = obj) as -> by congruence. done.
        - exists o. split; [|done].
          rewrite list_lookup_insert_ne by done.
          rewrite lookup_app_l; [done|]. by eapply lookup_lt_Some. }
      rewrite Hfuel' in Hsame by done. congruence. }
  exists path. split_and!; [done | done |].
  by apply (path_of_member store' self child cobj).
Qed.

Lemma setter_declared (store : Store) self obj c0 construct path :
  store !! self = Some obj -> _construct obj = Some c0 ->
  Namespace_path store self = Some path ->
  Namespace_construct_setter store self construct
  = Some (Raise (ValueError (already_declared path)), store).
Proof.
  intros Hobj Hc Hpath. unfold Namespace_construct_setter.
  rewrite Hobj. simpl. rewrite Hc, Hpath. done.
Qed.

Lemma setter_accepts (store : Store) self obj construct :
  store !! self = Some obj -> _construct obj = None ->
  _parent obj = Some (namespace construct) ->
  _name obj = Some (name construct) ->
  Namespace_construct_setter store self construct
  = Some (Return (), <[self := set_construct construct obj]> store).
Proof.
  intros Hobj Hc Hparent Hname. unfold Namespace_construct_setter.
  rewrite Hobj. simpl. rewrite Hc.
  rewrite !bool_decide_eq_true_2 by done. simpl.
  by rewrite (assign_Some _ _ _ obj).
Qed.

Lemma setter_consistent (store store' : Store) self construct outcome :
  consistent store ->
  Namespace_construct_setter store self construct = Some (outcome, store') ->
  consistent store'.
Proof.
  intros Hstore. unfold Namespace_construct_setter.
  destruct (store !! self) as [obj|] eqn:Hobj; [|done]. simpl.
  destruct (_construct obj) eqn:Hc.
  { destruct (Namespace_path store self); [|done]. by intros [= _ <-]. }
  destruct (bool_decide_reflect (_parent obj = Some (namespace construct)))
    as [Hparent|]; [|by intros [= _ <-]].
  destruct (bool_decide_reflect (_name obj = Some (name construct)))
    as [Hname|]; [|by intros [= _ <-]].
  simpl. rewrite (assign_Some _ _ _ obj) by done. simpl. intros [= _ <-].
  apply (consistent_insert _ _ obj); [done..| |].
  - by destruct (Hstore self obj Hobj) as (_ & Hm & _).
  - simpl. by intros c [= <-].
Qed.

(** Declaring where a construct is declared already. *)
Lemma declare_declared (store : Store) ns name child cobj c0 :
  consistent store ->
  has_member store ns name child ->
  store !! child = Some cobj -> _construct cobj = Some c0 ->
  exists path,
    Namespace_path store child = Some path /\
    ConstructBase_new store name ns
    = Some (Raise (ValueError (already_declared path)), store).
Proof.
  intros Hstore (nsobj & Hns & Hfound) Hchild Hc.
  destruct (Namespace_path_total store child Hstore)
    as (path & Hpath & _); [by eapply lookup_lt_Some|].
  exists path. split; [done|]. unfold ConstructBase_new.
  rewrite (getitem_existing _ _ _ _ _ Hns Hfound). simpl.
  by rewrite (setter_declared _ _ _ _ _ _ Hchild Hc Hpath).
Qed.

(** Creating a construct declares it at [namespace[name]], once.  In a
    consistent store the creation either succeeds, and then the construct
    is the one recorded at that namespace, which had none, and creating a
    construct of that name in that namespace again raises [ValueError]
    and changes nothing; or it raises the [ValueError] for a path
    declared already, the path being that of [namespace[name]], and the
    store is as it was.  The two other errors of the setter do not
    occur. *)
Theorem ConstructBase_declares_once
        (store : Store) (name : string) (namespace : Ref) :
  consistent store -> namespace < length store ->
  exists outcome store' child,
    ConstructBase_new store name namespace = Some (outcome, store') /\
    consistent store' /\
    has_member store' namespace name child /\
    match outcome with
    | Return construct =>
        construct = {| constructs.name := name;
                       constructs.namespace := namespace |} /\
        Namespace_construct store' child = Some (Some construct) /\
        (Namespace_construct store child = Some None \/
         store !! child = None) /\
        exists path,
          Namespace_path store' child = Some path /\
          ConstructBase_new store' name namespace
          = Some (Raise (ValueError (already_declared path)), store')
    | Raise e =>
        store' = store /\
        exists path declared,
          e = ValueError (already_declared path) /\
          Namespace_path store child = Some path /\
          Namespace_construct store child = Some (Some declared)
    end.
Proof.
  intros Hstore Hlt.
  destruct (lookup_lt_is_Some_2 store namespace Hlt) as [nsobj Hns].
  destruct (Namespace_getitem store namespace name) as [[child store1]|]
    eqn:Hget.
  2: { destruct (dict_get name (_members nsobj)) eqn:Hfound.
       - by rewrite (getitem_existing _ _ _ _ _ Hns Hfound) in Hget.
       - by rewrite (getitem_fresh _ _ _ _ Hns Hfound) in Hget. }
  pose proof (getitem_consistent _ _ _ _ _ Hstore Hget) as Hstore1.
  destruct (getitem_member _ _ _ _ _ Hstore Hget)
    as (Hmember & cobj & Hchild & Hname & Hparent & Hcase).
  destruct (_construct cobj) as [declared|] eqn:Hconstruct.
  - assert (store1 = store) as ->.
    { destruct Hcase as [?|(_ & ? & _)]; [done | congruence]. }
    destruct (declare_declared _ _ _ _ _ _ Hstore Hmember Hchild Hconstruct)
      as (path & Hpath & Hnew).
    exists (Raise (ValueError (already_declared path))), store, child.
    split_and!; [done..|]. exists path, declared.
    split_and!; [done | done |].
    unfold Namespace_construct. by rewrite Hchild; simpl; rewrite Hconstruct.
  - set (construct := {| constructs.name := name;
                         constructs.namespace := namespace |}).
    pose proof (setter_accepts store1 child cobj construct Hchild Hconstruct
                  Hparent Hname) as Hset.
    set (store2 := <[child := set_construct construct cobj]> store1) in *.
    assert (consistent store2) as Hstore2
      by by eapply setter_consistent.
    assert (store2 !! child = Some (set_construct construct cobj)) as Hchild2.
    { apply list_lookup_insert_eq. by eapply lookup_lt_Some. }
    assert (has_member store2 namespace name child) as Hmember2.
    { destruct Hmember as (o & Ho & Hfound).
      destruct (decide (namespace = child)) as [Heq|Hne].
      - rewrite Heq in *. assert (o = cobj) as -> by congruence.
        by eexists.
      - exists o. split; [|done]. unfold store2.
        by rewrite list_lookup_insert_ne. }
    exists (Return construct), store2, child.
    split_and!; [| done | done | done | | |].
    + unfold ConstructBase_new. cbv zeta. rewrite Hget.
      cbn [mbind option_bind]. fold construct. by rewrite Hset.
    + unfold Namespace_construct. by rewrite Hchild2.
    + destruct Hcase as [->|(-> & _)].
      * left. unfold Namespace_construct.
        by rewrite Hchild; simpl; rewrite Hconstruct.
      * right. by apply lookup_ge_None.
    + destruct (declare_declared store2 namespace name child
                  (set_construct construct cobj) construct)
        as (path & ? & ?); [done..|]. by exists path.
Qed.

(** Every operation that changes the store keeps it consistent, from
    the empty store on: a parent is older than its children, a member
    filed under a name carries that name and points back to its holder,
    and a construct sits at the namespace its name and namespace say. *)
Theorem constructs_keep_store_consistent :
  consistent [] /\
  (forall store, consistent store -> consistent (Namespace_new store).2) /\
  (forall store self name child store',
     consistent store ->
     Namespace_getitem store self name = Some (child, store') ->
     consistent store') /\
  (forall store self construct outcome store',
     consistent store ->
     Namespace_construct_setter store self construct
     = Some (outcome, store') ->
     consistent store') /\
  (forall store name namespace outcome store',
     consistent store ->
     ConstructBase_new store name namespace = Some (outcome, store') ->
     consistent store').
Proof.
  split_and!.
  - apply consistent_empty.
  - intros store Hstore. by apply consistent_app.
  - intros store self name child store' Hstore Hget.
    by eapply getitem_consistent.
  - intros store self construct outcome store' Hstore Hset.
    by eapply setter_consistent.
  - intros store name namespace outcome store' Hstore.
    unfold ConstructBase_new.
    destruct (Namespace_getitem store namespace name) as [[child store1]|]
      eqn:Hget; [|done]. simpl.
    destruct (Namespace_construct_setter store1 child _)
      as [[result store2]|] eqn:Hset; [|done]. simpl.
    intros [= _ <-].
    eapply setter_consistent; [|done]. by eapply getitem_consistent.
Qed.

End NamespaceFacts.

Section NamespaceExamples.

Import constructs.

Lemma nested_store_consistent : consistent nested_store.
Proof.
  assert (consistent (Namespace_new []).2) as Hroot by apply consistent_root.
  assert (exists s1, Namespace_getitem (Namespace_new []).2 0 "a"
                     = Some (1, s1) /\
                     Namespace_getitem s1 1 "b" = Some (2, nested_store))
    as (s1 & Ha & Hb) by (eexists; split; vm_compute; reflexivity).
  eapply getitem_consistent; [|exact Hb].
  eapply getitem_consistent; [|exact Ha]. exact Hroot.
Qed.

(** [root["c"]] creates a fourth object and files it last. *)
Lemma Namespace_getitem_get_or_create_witness :
  consistent nested_store /\ 0 < length nested_store /\
  exists child store',
    Namespace_getitem nested_store 0 "c" = Some (child, store') /\
    Namespace_getitem store' 0 "c" = Some (child, store') /\
    Namespace_resolve store' 0 "c" = Some (Return child).
Proof.
  assert (0 < length nested_store) as Hlt by (simpl; lia).
  split; [exact nested_store_consistent|]. split; [exact Hlt|].
  destruct (Namespace_getitem_get_or_create nested_store 0 "c"
              nested_store_consistent Hlt)
    as (child & store' & Hget & Hagain & Hresolve & _).
  exists child, store'. split; [exact Hget|]. split; [exact Hagain|].
  exact Hresolve.
Defined.

(** From [b], the name [a] is found two objects up; [zz] nowhere. *)
Lemma Namespace_resolve_nearest_witness :
  consistent nested_store /\ 2 < length nested_store /\
  exists r,
    Namespace_resolve nested_store 2 "a" = Some r /\
    match r with
    | Return found =>
        exists k owner,
          ancestor nested_store k 2 = Some owner /\
          has_member nested_store owner "a" found /\
          forall j o, j < k -> ancestor nested_store j 2 = Some o ->
                      lacks_member nested_store o "a"
    | Raise e =>
        e = KeyError "a" /\
        forall k owner, ancestor nested_store k 2 = Some owner ->
                        lacks_member nested_store owner "a"
    end.
Proof.
  assert (2 < length nested_store) as Hlt by (simpl; lia).
  split; [exact nested_store_consistent|]. split; [exact Hlt|].
  exact (Namespace_resolve_nearest nested_store 2 "a"
           nested_store_consistent Hlt).
Defined.

(** The path of [b["c"]] is [a], [b], [c]. *)
Lemma Namespace_path_of_child_witness :
  consistent nested_store /\
  exists child store' path,
    Namespace_getitem nested_store 2 "c" = Some (child, store') /\
    Namespace_path nested_store 2 = Some path /\
    Namespace_path store' child
    = Some (path ++ if String.eqb "c" "" then [] else ["c"]).
Proof.
  split; [exact nested_store_consistent|].
  assert (exists child store',
            Namespace_getitem nested_store 2 "c" = Some (child, store'))
    as (child & store' & Hget) by (eexists _, _; vm_compute; reflexivity).
  destruct (Namespace_path_of_child nested_store store' 2 child "c"
              nested_store_consistent Hget)
    as (path & Hpath & _ & Hchild).
  exists child, store', path.
  split; [exact Hget|]. split; [exact Hpath | exact Hchild].
Defined.

(** Declaring a construct [b] in [a]. *)
Lemma ConstructBase_declares_once_witness :
  consistent nested_store /\ 1 < length nested_store /\
  exists outcome store' child,
    ConstructBase_new nested_store "b" 1 = Some (outcome, store') /\
    consistent store' /\
    has_member store' 1 "b" child.
Proof.
  assert (1 < length nested_store) as Hlt by (simpl; lia).
  split; [exact nested_store_consistent|]. split; [exact Hlt|].
  destruct (ConstructBase_declares_once nested_store "b" 1
              nested_store_consistent Hlt)
    as (outcome & store' & child & Hnew & Hstore' & Hmember & _).
  exists outcome, store', child.
  split; [exact Hnew|]. split; [exact Hstore' | exact Hmember].
Defined.

End NamespaceExamples.
